(** * CloudVault (server.js): multipart decoder, size codec, quota-aware store

    A shallow embedding of the core of [server.js]: the size codec
    ([formatFileSize], [parseFileSize]), the multipart decoder
    ([parseMultipart]), the metadata store ([loadData], [saveData],
    [getTotalStorageUsed]) and the upload and delete routes of
    [requestHandler].

    Conventions of the embedding.
    - A JavaScript string is a [list ascii] of code units.  Every string the
      core handles is made of code units below 256: request headers are
      Latin-1 decoded by the HTTP layer and [buffer.toString('binary')] is a
      Latin-1 decoding.  A [Buffer] is a [list ascii] of bytes.
    - An index that JavaScript reports as [-1] is [None].
    - JavaScript numbers are exact rationals, with [NaN] apart (type [num]).
      The integers that occur (byte counts, the capacity) are far below 2^53
      and every multiplication or division is by a power of two, so these
      operations are exact on doubles; the decimal to binary conversion of
      [parseFloat] (relative error at most 2^-53) and the rounding of long
      sums are idealised.
    - The file system and the clock are explicit: a [World] holds the set of
      blob paths under [uploads/] and the content of the metadata file, an
      [Env] holds the outcome of the fallible system calls of one request. *)

From Stdlib Require Import QArith Qround Qabs Lqa.
From Stdlib Require Import Ascii String DecimalString.
From stdpp Require Import base list gmap strings.

Abbreviation JSString := (list ascii) (only parsing).
Abbreviation Buffer := (list ascii) (only parsing).

(** String literals of the source, as code-unit lists. *)
Definition str (s : string) : JSString := list_ascii_of_string s.

(** ** String and buffer primitives *)

Module JS.

(** [s.startsWith(pat)], also the test behind every search below. *)
Fixpoint startsWith (pat s : list ascii) : bool :=
  match pat, s with
  | [], _ => true
  | _ :: _, [] => false
  | p :: pat', c :: s' => Ascii.eqb p c && startsWith pat' s'
  end.

(** [s.indexOf(pat)]: the least offset at which [pat] occurs. *)
Fixpoint indexOf (pat s : list ascii) : option nat :=
  if startsWith pat s then Some 0
  else match s with
       | [] => None
       | _ :: s' => S <$> indexOf pat s'
       end.

(** [buf.lastIndexOf(pat)]: the greatest offset at which [pat] occurs.
    The needles of the source are never empty. *)
Fixpoint lastIndexOf (pat s : list ascii) : option nat :=
  match s with
  | [] => if startsWith pat [] then Some 0 else None
  | _ :: s' =>
      match lastIndexOf pat s' with
      | Some i => Some (S i)
      | None => if startsWith pat s then Some 0 else None
      end
  end.

(** [s.includes(pat)]. *)
Definition includes (pat s : list ascii) : bool :=
  bool_decide (is_Some (indexOf pat s)).

(** [buf.slice(a, b)] for [0 <= a] and [0 <= b]: empty when [b <= a]. *)
Definition slice (a b : nat) (buf : Buffer) : Buffer :=
  take (b - a) (drop a buf).

(** [s.split(sep)] for a non-empty separator: [skip] counts the code units
    of a separator still to be passed over, [cur] is the current piece in
    reverse. *)
Fixpoint split_go (sep : list ascii) (skip : nat) (cur s : list ascii)
  : list (list ascii) :=
  match s with
  | [] => [rev cur]
  | c :: s' =>
      match skip with
      | S k => split_go sep k cur s'
      | O =>
          if startsWith sep s
          then rev cur :: split_go sep (length sep - 1) [] s'
          else split_go sep 0 (c :: cur) s'
      end
  end.

Definition split (sep s : list ascii) : list (list ascii) :=
  match sep with
  | [] => (fun c => [c]) <$> s
  | _ :: _ => split_go sep 0 [] s
  end.

(** [Buffer.from(s)]: the UTF-8 encoding of a string of code units below
    256 (one byte below 128, two bytes from 128 on). *)
Definition utf8_unit (c : ascii) : list ascii :=
  let n := N_of_ascii c in
  if (n <? 128)%N then [c]
  else [ascii_of_N (192 + n / 64); ascii_of_N (128 + n mod 64)].

Definition Buffer_from (s : JSString) : Buffer := s ≫= utf8_unit.

(** [buf.toString('binary')]: Latin-1, byte [b] becomes code unit [b]. *)
Definition toString_binary (buf : Buffer) : JSString := buf.

(** [Buffer.concat(chunks)]. *)
Definition Buffer_concat (chunks : list Buffer) : Buffer := concat chunks.

End JS.

(** ** The regular expression of the decoder: the literal [filename=], a
    double quote, a group of one or more code units other than the double
    quote, and a closing double quote *)

Module Regex.

Definition quote : ascii := "034"%char.

(** The longest run of code units other than the double quote, and the rest. *)
Fixpoint span_nonquote (s : list ascii) : list ascii * list ascii :=
  match s with
  | [] => ([], [])
  | c :: s' =>
      if Ascii.eqb c quote then ([], s)
      else let '(run, rest) := span_nonquote s' in (c :: run, rest)
  end.

(** The group and the closing quote anchored at the head of [s]: the run is
    greedy and cannot pass a quote, so it is the maximal run, it must be
    non-empty and a quote must follow. *)
Definition capture (s : list ascii) : option (list ascii) :=
  match span_nonquote s with
  | ((_ :: _) as run, q :: _) => Some run
  | _ => None
  end.

Definition filename_lit : list ascii := str "filename=" ++ [quote].

(** The whole pattern anchored at the head of [s]. *)
Definition match_here (s : list ascii) : option (list ascii) :=
  if JS.startsWith filename_lit s
  then capture (drop (length filename_lit) s)
  else None.

(** [s.match(re)] for that expression: group 1 of the leftmost match. *)
Fixpoint match_filename (s : list ascii) : option (list ascii) :=
  match match_here s with
  | Some f => Some f
  | None =>
      match s with
      | [] => None
      | _ :: s' => match_filename s'
      end
  end.

End Regex.

(** ** JavaScript numbers *)

Inductive num : Type :=
| NaN
| Fin (q : Q).

Definition num_add (a b : num) : num :=
  match a, b with
  | Fin x, Fin y => Fin (x + y)%Q
  | _, _ => NaN
  end.

Definition num_mul (a b : num) : num :=
  match a, b with
  | Fin x, Fin y => Fin (x * y)%Q
  | _, _ => NaN
  end.

(** [a > b]: false as soon as one side is [NaN]. *)
Definition num_gt (a b : num) : bool :=
  match a, b with
  | Fin x, Fin y => negb (Qle_bool x y)
  | _, _ => false
  end.

Definition of_N (n : N) : Q := inject_Z (Z.of_N n).

(** ** Size codec *)

Module Codec.

Definition digit (d : N) : ascii := ascii_of_N (48 + d).

(** Decimal digits of a natural number, without leading zeros. *)
Definition digits (n : N) : JSString :=
  str (DecimalString.NilZero.string_of_uint (N.to_uint n)).

Definition is_digit (c : ascii) : bool :=
  let n := N_of_ascii c in ((48 <=? n) && (n <=? 57))%N.

(** The white space below 256: space, tab to carriage return, no-break
    space. *)
Definition is_space (c : ascii) : bool :=
  let n := N_of_ascii c in
  ((n =? 32) || ((9 <=? n) && (n <=? 13)) || (n =? 160))%N.

Fixpoint span_digits (s : JSString) : JSString * JSString :=
  match s with
  | [] => ([], [])
  | c :: s' =>
      if is_digit c
      then let '(ds, rest) := span_digits s' in (c :: ds, rest)
      else ([], s)
  end.

Fixpoint skip_spaces (s : JSString) : JSString :=
  match s with
  | c :: s' => if is_space c then skip_spaces s' else s
  | [] => []
  end.

Definition digits_value (ds : JSString) : N :=
  foldl (fun acc d => acc * 10 + (N_of_ascii d - 48))%N 0%N ds.

(** The value of the digits [ip], a point and the digits [fp]. *)
Definition decimal_value (ip fp : JSString) : Q :=
  (of_N (digits_value ip)
   + of_N (digits_value fp) / of_N (10 ^ N.of_nat (length fp)))%Q.

(** An exponent part [e], [e+] or [e-] followed by digits, when there is
    one: the power of ten to scale by. *)
Definition exponent (s : JSString) : Q :=
  let scale (neg : bool) (t : JSString) : Q :=
    match span_digits t with
    | ([], _) => 1%Q
    | (ds, _) =>
        let p := of_N (10 ^ digits_value ds) in
        if neg then (/ p)%Q else p
    end in
  match s with
  | c :: t =>
      if (N_of_ascii c =? 101)%N || (N_of_ascii c =? 69)%N then
        match t with
        | sg :: t' =>
            if (N_of_ascii sg =? 45)%N then scale true t'
            else if (N_of_ascii sg =? 43)%N then scale false t'
            else scale false t
        | [] => 1%Q
        end
      else 1%Q
  | [] => 1%Q
  end.

(** An unsigned decimal literal at the head of [s]; the text after it is
    ignored, and without any digit the result is [NaN]. *)
Definition parse_unsigned (s : JSString) : num :=
  let '(ip, r) := span_digits s in
  match r with
  | c :: r' =>
      if (N_of_ascii c =? 46)%N then
        let '(fp, r'') := span_digits r' in
        match ip, fp with
        | [], [] => NaN
        | _, _ => Fin (decimal_value ip fp * exponent r'')%Q
        end
      else
        match ip with
        | [] => NaN
        | _ => Fin (decimal_value ip [] * exponent r)%Q
        end
  | [] =>
      match ip with
      | [] => NaN
      | _ => Fin (decimal_value ip [])
      end
  end.

(** [parseFloat(s)]: leading white space, an optional sign, then the longest
    decimal literal.  The literal [Infinity] and overflow to infinity are
    outside the fragment of numbers modelled here. *)
Definition parseFloat (s : JSString) : num :=
  match skip_spaces s with
  | c :: t =>
      if (N_of_ascii c =? 45)%N then num_mul (Fin (-1)%Q) (parse_unsigned t)
      else if (N_of_ascii c =? 43)%N then parse_unsigned t
      else parse_unsigned (c :: t)
  | [] => NaN
  end.

(** The number of hundredths nearest to [q], ties upwards: the integer that
    [q.toFixed(2)] prints for [0 <= q]. *)
Definition hundredths (q : Q) : Z := Qfloor (q * 100 + (1 # 2))%Q.

Definition print_hundredths (h : Z) : JSString :=
  let n := Z.to_N h in
  digits (n / 100) ++ str "." ++ [digit (n mod 100 / 10); digit (n mod 10)].

(** [q.toFixed(2)] for [0 <= q < 10^21]. *)
Definition toFixed2 (q : Q) : JSString := print_hundredths (hundredths q).

(** Number to string conversion, as [+] with a string operand performs it,
    for [0 <= q].  The shortest decimal that reads back as the same double:
    for a number of at most two decimals, which is all the codec prints,
    these are its decimals without trailing zeros. *)
Definition Number_toString (v : num) : JSString :=
  match v with
  | NaN => str "NaN"
  | Fin q =>
      let n := Z.to_N (Qfloor (q * 100)%Q) in
      let ip := digits (n / 100) in
      let f := (n mod 100)%N in
      if (f =? 0)%N then ip
      else if (f mod 10 =? 0)%N then ip ++ str "." ++ [digit (f / 10)]
      else ip ++ str "." ++ [digit (f / 10); digit (f mod 10)]
  end.

(** [Math.floor(Math.log(bytes) / Math.log(1024))] for [0 < bytes]: the
    exact integer logarithm.  The rounding of [Math.log] is idealised: for
    an integer below 2^53 the quotient of the logarithms is an integer at
    the powers of 1024 only, and is far from one elsewhere. *)
Definition log1024 (bytes : N) : nat := N.to_nat (N.log2 bytes / 10).

Definition sizes : list JSString := [str "Bytes"; str "KB"; str "MB"; str "GB"].

(** [Math.pow(1024, i)]. *)
Definition pow1024 (i : nat) : N := (1024 ^ N.of_nat i)%N.

(** [sizes[i]] inside a string concatenation: out of range it is
    [undefined], printed as such. *)
Definition size_label (i : nat) : JSString :=
  default (str "undefined") (sizes !! i).

Definition formatFileSize (bytes : N) : JSString :=
  if (bytes =? 0)%N then str "0 Bytes"
  else
    let i := log1024 bytes in
    Number_toString (parseFloat (toFixed2 (of_N bytes / of_N (pow1024 i))%Q))
      ++ str " " ++ size_label i.

Definition parseFileSize (sizeStr : JSString) : num :=
  let parts := JS.split (str " ") sizeStr in
  let unit := parts !! 1 in
  let value := parseFloat (default [] (parts !! 0)) in
  if bool_decide (unit = Some (str "Bytes")) then value
  else if bool_decide (unit = Some (str "KB")) then num_mul value (Fin 1024%Q)
  else if bool_decide (unit = Some (str "MB"))
       then num_mul (num_mul value (Fin 1024%Q)) (Fin 1024%Q)
  else if bool_decide (unit = Some (str "GB"))
       then num_mul (num_mul (num_mul value (Fin 1024%Q)) (Fin 1024%Q))
                    (Fin 1024%Q)
  else Fin 0%Q.

End Codec.

(** ** Metadata records, the world and the environment of a request *)

Record FileRecord : Type := {
  f_id : Z;
  f_name : JSString;
  f_type : JSString;
  f_size : JSString;
  f_date : JSString;
  f_path : JSString
}.

(** The calls made on the file system, most recent first. *)
Inductive FsCall : Type :=
| WriteBlob (p : JSString)
| UnlinkBlob (p : JSString)
| ReadData
| WriteData (files : list FileRecord).

(** [blobs]: the paths of the blobs present on disk.  [data_file]: the
    snapshot held by the metadata file, [None] when the file cannot be read
    or parsed.  [calls]: the file-system calls made so far. *)
Record World : Type := {
  blobs : gset (list ascii);
  data_file : option (list FileRecord);
  calls : list FsCall
}.

(** What one request finds outside the program: whether the blob write, the
    blob removal and the metadata write succeed, the clock ([Date.now()] and
    the ISO date) and the outcome of [generateUniqueId()]. *)
Record Env : Type := {
  write_ok : bool;
  unlink_ok : bool;
  save_ok : bool;
  now : Z;
  today : JSString;
  uid : JSString
}.

Definition log_call (c : FsCall) (w : World) : World :=
  {| blobs := blobs w; data_file := data_file w; calls := c :: calls w |}.

(** [loadData()]: an unreadable file yields the empty snapshot. *)
Definition loadData (w : World) : World * list FileRecord :=
  (log_call ReadData w, default [] (data_file w)).

(** [saveData(data)]: [fs.writeFileSync] replaces the file or throws; a
    failed write leaves the former content. *)
Definition saveData (e : Env) (files : list FileRecord) (w : World)
  : World * bool :=
  let w' := log_call (WriteData files) w in
  if save_ok e
  then ({| blobs := blobs w'; data_file := Some files; calls := calls w' |},
        true)
  else (w', false).

(** [getTotalStorageUsed()]. *)
Definition total_of (files : list FileRecord) : num :=
  foldl (fun total file => num_add total (Codec.parseFileSize (f_size file)))
        (Fin 0%Q) files.

Definition getTotalStorageUsed (w : World) : World * num :=
  let '(w', files) := loadData w in (w', total_of files).

(** The capacity, [25 * 1024 * 1024 * 1024]. *)
Definition totalBytes : N := 25 * 1024 * 1024 * 1024.

(** ** Multipart decoder *)

Inductive DecodeError : Type :=
| NotMultipart        (* 'Not multipart data' *)
| NoBoundary          (* 'No boundary found' *)
| InvalidFormat       (* 'Invalid multipart format' *)
| NoFileBoundaries    (* 'Could not find file boundaries' *)
| WriteFailed.        (* the error of fs.writeFile *)

(** The failures of the decoder on the framing of the request. *)
Definition MalformedRequest (e : DecodeError) : Prop :=
  e = NotMultipart ∨ e = NoBoundary ∨ e = InvalidFormat
  ∨ e = NoFileBoundaries.

Inductive result (A : Type) : Type :=
| Ok (a : A)
| Err (e : DecodeError).
Arguments Ok {A} a.
Arguments Err {A} e.

Record Request : Type := {
  content_type : option JSString;   (* req.headers['content-type'] *)
  chunks : list Buffer              (* the 'data' events, in order *)
}.

(** The object handed to the callback on success. *)
Record UploadedFile : Type := {
  originalname : JSString;
  path : JSString;
  size : N
}.

Definition CRLFCRLF : JSString :=
  ["013"; "010"; "013"; "010"]%char.

(** [path.join('uploads', name)]; Node also normalises the result, which
    changes nothing for a name without separators or dot segments, and no
    statement below depends on the shape of the path. *)
Definition path_join (dir name : JSString) : JSString :=
  dir ++ str "/" ++ name.

(** [contentType.split('boundary=')[1]] when it is truthy. *)
Definition boundary_of (contentType : JSString) : option JSString :=
  match JS.split (str "boundary=") contentType !! 1 with
  | Some (c :: b) => Some (c :: b)
  | _ => None
  end.

(** [fileEndIndex], with its fallback on the terminal boundary. *)
Definition fileEndIndex (boundary : JSString) (buffer : Buffer) : option nat :=
  let boundaryBytes := JS.Buffer_from (str "--" ++ boundary) in
  let boundaryEndBytes := JS.Buffer_from (str "--" ++ boundary ++ str "--") in
  match JS.lastIndexOf boundaryBytes buffer with
  | Some i => Some i
  | None => JS.lastIndexOf boundaryEndBytes buffer
  end.

(** The body of the ['end'] listener up to the extraction of the file data:
    the file name and the payload, or the framing error. *)
Definition decodePart (boundary : JSString) (buffer : Buffer)
  : result (JSString * Buffer) :=
  let bufferStr := JS.toString_binary buffer in
  let filename := default [] (Regex.match_filename bufferStr) in
  match JS.indexOf CRLFCRLF bufferStr with
  | None => Err InvalidFormat
  | Some headerEnd =>
      let fileStartIndex := headerEnd + 4 in
      match fileEndIndex boundary buffer with
      | None => Err NoFileBoundaries
      | Some fileEnd =>
          if bool_decide (fileEnd ≤ fileStartIndex)
          then Err NoFileBoundaries
          else Ok (filename, JS.slice fileStartIndex (fileEnd - 2) buffer)
      end
  end.

(** The checks on the header, then [decodePart] on the whole body. *)
Definition decode (req : Request) : result (JSString * Buffer) :=
  let contentType := default [] (content_type req) in
  if negb (JS.includes (str "multipart/form-data") contentType)
  then Err NotMultipart
  else
    match boundary_of contentType with
    | None => Err NoBoundary
    | Some boundary => decodePart boundary (JS.Buffer_concat (chunks req))
    end.

(** [fs.writeFile(fullFilePath, fileData, cb)]: the blob is there after a
    successful write. *)
Definition write_blob (e : Env) (p : JSString) (w : World) : World * bool :=
  let w' := log_call (WriteBlob p) w in
  if write_ok e
  then ({| blobs := {[ p ]} ∪ blobs w'; data_file := data_file w';
           calls := calls w' |}, true)
  else (w', false).

(** [parseMultipart(req, callback)]: the result is what the callback
    receives, together with the bytes written when there are some. *)
Definition parseMultipart (req : Request) (e : Env) (w : World)
  : World * result UploadedFile * option Buffer :=
  match decode req with
  | Err err => (w, Err err, None)
  | Ok (filename, fileData) =>
      let uniqueName := uid e ++ str "-" ++ filename in
      let filePath := path_join (str "uploads") uniqueName in
      let '(w', written) := write_blob e filePath w in
      if written
      then (w', Ok {| originalname := filename; path := filePath;
                      size := N.of_nat (length fileData) |}, Some fileData)
      else (w', Err WriteFailed, None)
  end.

(** ** The upload and delete routes of [requestHandler] *)

Inductive Body : Type :=
| ErrorBody (message : JSString)
| UploadedBody (file : FileRecord)    (* 'File uploaded successfully' *)
| DeletedBody.                        (* 'File deleted successfully' *)

Record Response : Type := { status : nat; body : Body }.

Definition sendJSON (b : Body) (statusCode : nat) : Response :=
  {| status := statusCode; body := b |}.

Definition err_message (e : DecodeError) : JSString :=
  match e with
  | NotMultipart => str "Not multipart data"
  | NoBoundary => str "No boundary found"
  | InvalidFormat => str "Invalid multipart format"
  | NoFileBoundaries => str "Could not find file boundaries"
  | WriteFailed => str "write failed"
  end.

(** [name.split('.').pop() || 'unknown']. *)
Definition extension (name : JSString) : JSString :=
  match last (JS.split (str ".") name) with
  | Some (c :: ext) => c :: ext
  | _ => str "unknown"
  end.

Definition newFile (e : Env) (file : UploadedFile) : FileRecord :=
  {| f_id := now e;
     f_name := originalname file;
     f_type := extension (originalname file);
     f_size := Codec.formatFileSize (size file);
     f_date := today e;
     f_path := path file |}.

(** [fs.unlinkSync(p)] guarded by [fs.existsSync(p)], inside [try]. *)
Definition unlink_if_exists (e : Env) (p : JSString) (w : World) : World :=
  if bool_decide (p ∈ blobs w) then
    let w' := log_call (UnlinkBlob p) w in
    if unlink_ok e
    then {| blobs := blobs w' ∖ {[ p ]}; data_file := data_file w';
            calls := calls w' |}
    else w'
  else w.

Definition quota_message : JSString := str "Storage limit exceeded (25GB)".

(** The callback that the upload route gives to [parseMultipart]. *)
Definition uploadCallback (r : result UploadedFile) (e : Env) (w : World)
  : World * Response :=
  match r with
  | Err err =>
      (w, sendJSON (ErrorBody (str "Upload failed: " ++ err_message err)) 500)
  | Ok file =>
      let '(w1, usedBytes) := getTotalStorageUsed w in
      let fileSize := Fin (of_N (size file)) in
      if num_gt (num_add usedBytes fileSize) (Fin (of_N totalBytes)) then
        (unlink_if_exists e (path file) w1,
         sendJSON (ErrorBody quota_message) 400)
      else
        let nf := newFile e file in
        let '(w2, files) := loadData w1 in
        let files' := files ++ [nf] in
        let '(w3, saved) := saveData e files' w2 in
        if saved then (w3, sendJSON (UploadedBody nf) 200)
        else (w3, sendJSON (ErrorBody (str "Failed to save file info")) 500)
  end.

(** [POST /api/upload]. *)
Definition handleUpload (req : Request) (e : Env) (w : World)
  : World * Response :=
  let '(w', r, _) := parseMultipart req e w in uploadCallback r e w'.

(** [files.findIndex(f => f.id === fileId)]. *)
Fixpoint findIndex (fileId : Z) (files : list FileRecord) : option nat :=
  match files with
  | [] => None
  | f :: rest =>
      if bool_decide (f_id f = fileId) then Some 0
      else S <$> findIndex fileId rest
  end.

(** [files.splice(i, 1)] and [files.splice(i, 0, x)] on the list itself. *)
Definition splice_out {A} (i : nat) (l : list A) : list A :=
  take i l ++ drop (S i) l.

Definition splice_in {A} (i : nat) (x : A) (l : list A) : list A :=
  take i l ++ x :: drop i l.

(** [DELETE /api/files/<id>], from the parsed identifier on.  The third
    component is the snapshot [data.files] held in memory when the handler
    answers.  The index that [findIndex] returns is always in range; the
    branch for a missing element stands for the [catch] of the handler and
    is never taken. *)
Definition handleDelete (fileId : Z) (e : Env) (w : World)
  : World * Response * list FileRecord :=
  let '(w1, files) := loadData w in
  match findIndex fileId files with
  | None => (w1, sendJSON (ErrorBody (str "File not found")) 404, files)
  | Some fileIndex =>
      match files !! fileIndex with
      | None => (w1, sendJSON (ErrorBody (str "Deletion failed")) 500, files)
      | Some file =>
          let deletedFile := file in
          let files1 := splice_out fileIndex files in
          let '(w2, saved) := saveData e files1 w1 in
          if saved then
            let w3 := log_call (UnlinkBlob (f_path file)) w2 in
            let w4 :=
              if unlink_ok e && bool_decide (f_path file ∈ blobs w3)
              then {| blobs := blobs w3 ∖ {[ f_path file ]};
                      data_file := data_file w3; calls := calls w3 |}
              else w3 in
            (w4, sendJSON DeletedBody 200, files1)
          else
            (w2, sendJSON (ErrorBody (str "Failed to update database")) 500,
             splice_in fileIndex deletedFile files1)
      end
  end.

(** ** The inputs of the statements *)

Definition CRLF : JSString := ["013"; "010"]%char.

(** The part header of the synthetic body: the opening delimiter, then a
    [Content-Disposition] line in which [pre] and [post] stand for the text
    around the file name token. *)
Definition framed_head (B pre : JSString) : JSString :=
  str "--" ++ B ++ CRLF ++ str "Content-Disposition: " ++ pre.

Definition filename_token (name : JSString) : JSString :=
  Regex.filename_lit ++ name ++ [Regex.quote].

(** The terminal boundary, and a body made of a header block [H], the blank
    line, the payload [P], a line terminator and the terminal boundary. *)
Definition terminal_of (B : JSString) : JSString := str "--" ++ B ++ str "--".

Definition part_body (H P B : JSString) : Buffer :=
  H ++ CRLFCRLF ++ P ++ CRLF ++ terminal_of B.

(** The header block of the synthetic body, with the file name [a.txt]. *)
Definition framed_header (B pre post : JSString) : JSString :=
  framed_head B pre ++ filename_token (str "a.txt") ++ post.

(** The synthetic single-part body. *)
Definition framed_body (B pre post P : JSString) : Buffer :=
  part_body (framed_header B pre post) P B.

Definition framed_request (B pre post P : JSString) : Request :=
  {| content_type := Some (str "multipart/form-data; boundary=" ++ B);
     chunks := [framed_body B pre post P] |}.

(** The usual text before the file name token: a form field called file. *)
Definition form_data_pre : JSString :=
  str "form-data; name=" ++ [Regex.quote] ++ str "file" ++ [Regex.quote]
    ++ str "; ".

(** A body whose part header names a field but no file, and whose payload
    is the text of a file name token. *)
Definition payload_token_body : Buffer :=
  str "--B" ++ CRLF ++ str "Content-Disposition: form-data; name="
    ++ [Regex.quote] ++ str "file" ++ [Regex.quote] ++ CRLFCRLF
    ++ filename_token (str "evil.exe") ++ CRLF ++ str "--B--".

Definition payload_token_request : Request :=
  {| content_type := Some (str "multipart/form-data; boundary=B");
     chunks := [payload_token_body] |}.

(** A well-framed request with boundary [XyZ] and payload [hello]. *)
Definition sample_request : Request :=
  framed_request (str "XyZ") form_data_pre [] (str "hello").

(** A code unit below 128: one that UTF-8 encodes as itself. *)
Definition is_ascii7 (c : ascii) : Prop := (N_of_ascii c < 128)%N.

(** The header carries no boundary: [boundary=] does not occur, or what
    follows its first occurrence is empty or is [boundary=] again. *)
Definition no_boundary_parameter (contentType : JSString) : Prop :=
  match JS.indexOf (str "boundary=") contentType with
  | None => True
  | Some i =>
      let rest := drop (i + 9) contentType in
      rest = [] ∨ JS.startsWith (str "boundary=") rest = true
  end.

(** The framing faults of a request: (a) the header is not
    [multipart/form-data] or carries no boundary; (b) the body has no
    CR LF CR LF; (c) neither boundary occurs in the body, or the end offset
    is not after the start offset. *)
Definition framing_fault (req : Request) : Prop :=
  let contentType := default [] (content_type req) in
  let buffer := JS.Buffer_concat (chunks req) in
  (JS.includes (str "multipart/form-data") contentType = false
   ∨ no_boundary_parameter contentType)
  ∨ JS.indexOf CRLFCRLF buffer = None
  ∨ ∃ boundary, boundary_of contentType = Some boundary
      ∧ ((JS.includes (JS.Buffer_from (str "--" ++ boundary)) buffer = false
          ∧ JS.includes (JS.Buffer_from (str "--" ++ boundary ++ str "--"))
              buffer = false)
         ∨ ∃ headerEnd fileEnd,
             JS.indexOf CRLFCRLF buffer = Some headerEnd
             ∧ fileEndIndex boundary buffer = Some fileEnd
             ∧ fileEnd ≤ headerEnd + 4).

(** One upload whose body was decoded and whose blob was written: the
    callback runs in the world that holds the blob. *)
Definition upload_step (w : World) (x : UploadedFile * Env) : World :=
  let '(file, e) := x in
  let w1 := {| blobs := {[ path file ]} ∪ blobs w; data_file := data_file w;
               calls := WriteBlob (path file) :: calls w |} in
  (uploadCallback (Ok file) e w1).1.

Definition run_uploads (xs : list (UploadedFile * Env)) (w : World) : World :=
  foldl upload_step w xs.

Definition empty_world : World :=
  {| blobs := ∅; data_file := Some []; calls := [] |}.

(** The records of the persisted snapshot, as [loadData] returns them. *)
Definition stored (w : World) : list FileRecord := (loadData w).2.

(** The byte factor of the unit that [formatFileSize] selects for [n]. *)
Definition unit_factor (n : N) : N := Codec.pow1024 (Codec.log1024 n).

(** The codec's output for a value of [h] hundredths in the unit of index
    [i]: what [formatFileSize] builds after rounding. *)
Definition render (h : Z) (i : nat) : JSString :=
  Codec.Number_toString (Codec.parseFloat (Codec.print_hundredths h))
    ++ str " " ++ Codec.size_label i.

(** [f] holds at [h], [h+1], ..., [h+k-1]. *)
Fixpoint all_from (k : nat) (h : Z) (f : Z → bool) : bool :=
  match k with
  | O => true
  | S k' => f h && all_from k' (h + 1)%Z f
  end.

(** The two-decimal text of [h] hundredths reads as [h / 100], and the
    number printed from it has no space and reads back as [h / 100]. *)
Definition reads_back (h : Z) : bool :=
  match Codec.parseFloat (Codec.print_hundredths h) with
  | Fin v0 =>
      let s := Codec.Number_toString (Fin v0) in
      Qeq_bool v0 (h # 100)
      && bool_decide (JS.indexOf (str " ") s = None)
      && match Codec.parseFloat s with
         | Fin v => Qeq_bool v (h # 100)
         | NaN => false
         end
  | NaN => false
  end.

(** Sample environment and requests. *)
Definition sample_env : Env :=
  {| write_ok := true; unlink_ok := true; save_ok := true;
     now := 1700000000000; today := str "2023-11-14";
     uid := str "lozq1x2k9f3ab" |}.

(** A well-framed upload of a file called [README]. *)
Definition readme_request : Request :=
  {| content_type := Some (str "multipart/form-data; boundary=XyZ");
     chunks :=
       [part_body (framed_head (str "XyZ") form_data_pre
                     ++ filename_token (str "README"))
                  (str "hello") (str "XyZ")] |}.

(** Two decoded uploads: one byte, then one byte less than the capacity. *)
Definition one_byte_upload : UploadedFile :=
  {| originalname := str "a.txt"; path := str "uploads/1-a.txt"; size := 1 |}.


(** The slack of the quota: a hundredth of the factor of the largest unit. *)
Definition quota_slack : Q := (1 # 100) * of_N (1024 ^ 3).

(** A world whose snapshot holds one record of 25 GB and whose disk holds
    the blob of [one_byte_upload], just written. *)
Definition full_record : FileRecord :=
  {| f_id := 1; f_name := str "big.iso"; f_type := str "iso";
     f_size := str "25 GB"; f_date := str "2023-11-13";
     f_path := str "uploads/0-big.iso" |}.

Definition full_world : World :=
  {| blobs := {[ path one_byte_upload ]}; data_file := Some [full_record];
     calls := [WriteBlob (path one_byte_upload)] |}.


(** ** The other routes of [requestHandler] *)

(** [parseInt(s)] without radix, [None] for [NaN]: leading white space, an
    optional sign, an optional [0x] or [0X] prefix that selects radix 16,
    then the longest run of digits of the radix; what follows is ignored.
    The integer is exact (beyond 2^53 JavaScript rounds it). *)
Module ParseInt.

Definition dec_digit (c : ascii) : option N :=
  let n := N_of_ascii c in
  if ((48 <=? n) && (n <=? 57))%N then Some (n - 48)%N else None.

Definition hex_digit (c : ascii) : option N :=
  let n := N_of_ascii c in
  if ((48 <=? n) && (n <=? 57))%N then Some (n - 48)%N
  else if ((97 <=? n) && (n <=? 102))%N then Some (n - 87)%N
  else if ((65 <=? n) && (n <=? 70))%N then Some (n - 55)%N
  else None.

Fixpoint radix_digits (dv : ascii → option N) (s : JSString) : list N :=
  match s with
  | c :: s' =>
      match dv c with
      | Some d => d :: radix_digits dv s'
      | None => []
      end
  | [] => []
  end.

Definition radix_value (R : N) (ds : list N) : N :=
  foldl (fun acc d => acc * R + d)%N 0%N ds.

Definition unsigned (s : JSString) : option N :=
  let hex := JS.startsWith (str "0x") s || JS.startsWith (str "0X") s in
  let ds := if hex then radix_digits hex_digit (drop 2 s)
            else radix_digits dec_digit s in
  match ds with
  | [] => None
  | _ :: _ => Some (radix_value (if hex then 16 else 10) ds)
  end.

Definition parseInt (s : JSString) : option Z :=
  match Codec.skip_spaces s with
  | c :: t =>
      if (N_of_ascii c =? 45)%N then (fun n => (- Z.of_N n)%Z) <$> unsigned t
      else if (N_of_ascii c =? 43)%N then Z.of_N <$> unsigned t
      else Z.of_N <$> unsigned (c :: t)
  | [] => None
  end.

End ParseInt.

(** [parseInt(url.split('/')[3])]: a missing piece is [undefined], which
    reads as [NaN]. *)
Definition url_id (url : JSString) : option Z :=
  ParseInt.parseInt (default (str "undefined") (JS.split (str "/") url !! 3)).

(** [files.find(f => f.id === fileId)]. *)
Definition find_file (fileId : Z) (files : list FileRecord)
  : option FileRecord :=
  List.find (fun f => bool_decide (f_id f = fileId)) files.

(** What the download route sends: an error as JSON, or the headers of the
    stream ([Content-Length], [Content-Disposition]) and the blob piped. *)
Inductive DownloadOutcome : Type :=
| DownloadError (r : Response)
| DownloadStream (contentLength : N) (disposition : JSString) (p : JSString).

(** [GET /api/download/<id>], from the parsed identifier on ([None] is
    [NaN], equal to no identifier).  [fs.access] with [F_OK] succeeds when
    the blob exists; [stat] is the outcome of [fs.stat], the size of the
    blob or [None] for an error.  These read-only calls on the blob are not
    recorded in the trace. *)
Definition handleDownload (fileId : option Z) (stat : option N) (w : World)
  : World * DownloadOutcome :=
  let '(w1, files) := loadData w in
  match fileId ≫= (fun i => find_file i files) with
  | None =>
      (w1, DownloadError
             (sendJSON (ErrorBody (str "File not found in database")) 404))
  | Some file =>
      if bool_decide (f_path file ∈ blobs w1) then
        match stat with
        | None =>
            (w1, DownloadError
                   (sendJSON (ErrorBody (str "Error accessing file")) 500))
        | Some size =>
            (w1, DownloadStream size
                   (str "attachment; filename=" ++ [Regex.quote]
                      ++ f_name file ++ [Regex.quote])
                   (f_path file))
        end
      else
        (w1, DownloadError
               (sendJSON (ErrorBody (str "File not found on disk")) 404))
  end.

(** [DELETE /api/files/<id>] from the URL: an identifier that is [NaN]
    matches no record. *)
Definition deleteRoute (url : JSString) (e : Env) (w : World)
  : World * Response :=
  match url_id url with
  | Some fileId => (handleDelete fileId e w).1
  | None =>
      let '(w1, _) := loadData w in
      (w1, sendJSON (ErrorBody (str "File not found")) 404)
  end.

(** [x.toFixed(2)] on a number: [NaN] prints as such, a negative number as
    a minus sign and its magnitude (magnitudes below 10^21). *)
Definition num_toFixed2 (v : num) : JSString :=
  match v with
  | NaN => str "NaN"
  | Fin q =>
      if Qle_bool 0 q then Codec.toFixed2 q
      else str "-" ++ Codec.toFixed2 (- q)%Q
  end.

(** [a / b]; the divisors of the source are non-zero constants, and a zero
    divisor, which JavaScript answers with an infinity, is left as [NaN]. *)
Definition num_div (a b : num) : num :=
  match a, b with
  | Fin x, Fin y => if Qeq_bool y 0 then NaN else Fin (x / y)%Q
  | _, _ => NaN
  end.

(** [bytesToGB(bytes)]. *)
Definition bytesToGB (bytes : num) : JSString :=
  num_toFixed2 (num_div bytes (Fin (of_N (1024 * 1024 * 1024)))).

(** The body of the answer of [GET /api/storage]. *)
Record StorageInfo : Type := {
  si_used : JSString;
  si_total : JSString;
  si_percentage : num
}.

Definition storageInfo (w : World) : World * StorageInfo :=
  let '(w1, usedBytes) := getTotalStorageUsed w in
  let usedGB := bytesToGB usedBytes in
  let percentage :=
    num_toFixed2 (num_mul (num_div usedBytes (Fin (of_N totalBytes)))
                          (Fin 100%Q)) in
  (w1, {| si_used := usedGB ++ str " GB";
          si_total := str "25 GB";
          si_percentage := Codec.parseFloat percentage |}).

(** A request as the handler sees it: method, URL, and for an upload the
    header and the body chunks. *)
Record HttpRequest : Type := {
  rq_method : JSString;
  rq_url : JSString;
  rq_upload : Request
}.

(** What the handler answers. *)
Inductive Outcome : Type :=
| Preflight                            (* 200, CORS headers, no body *)
| ApiMessage                           (* 'API is working' *)
| FileList (files : list FileRecord)
| StorageReport (info : StorageInfo)
| Json (r : Response)
| Download (d : DownloadOutcome)
| StaticFile (relative : JSString)     (* serveStaticFile under public/ *)
| NotFoundPage.                        (* 404, 'Resource not found' *)

(** [requestHandler(req, res)].  The static routes stop at the call of
    [serveStaticFile] with the path below [public]. *)
Definition requestHandler (r : HttpRequest) (e : Env) (stat : option N)
    (w : World) : World * Outcome :=
  let url := rq_url r in
  let meth (m : string) := bool_decide (rq_method r = str m) in
  let on (u : string) := bool_decide (url = str u) in
  if meth "OPTIONS" then (w, Preflight)
  else if JS.startsWith (str "/api/") url then
    if on "/api/test" && meth "GET" then (w, ApiMessage)
    else if on "/api/files" && meth "GET" then
      let '(w1, files) := loadData w in (w1, FileList files)
    else if on "/api/storage" && meth "GET" then
      let '(w1, info) := storageInfo w in (w1, StorageReport info)
    else if on "/api/upload" && meth "POST" then
      let '(w1, resp) := handleUpload (rq_upload r) e w in (w1, Json resp)
    else if JS.startsWith (str "/api/download/") url && meth "GET" then
      let '(w1, d) := handleDownload (url_id url) stat w in (w1, Download d)
    else if JS.startsWith (str "/api/files/") url && meth "DELETE" then
      let '(w1, resp) := deleteRoute url e w in (w1, Json resp)
    else (w, Json (sendJSON (ErrorBody (str "API endpoint not found")) 404))
  else if on "/" && meth "GET" then (w, StaticFile (str "index.html"))
  else if meth "GET" && JS.startsWith (str "/") url
       then (w, StaticFile (drop 1 url))
  else (w, NotFoundPage).

(** ** Further inputs *)

(** A header block with the file name [name], and a body made of a header
    block [H], the blank line, the bytes [R] up to the last delimiter, and
    the terminal boundary. *)
Definition named_header (B pre name post : JSString) : JSString :=
  framed_head B pre ++ filename_token name ++ post.

Definition region_body (H R B : JSString) : Buffer :=
  H ++ CRLFCRLF ++ R ++ terminal_of B.

(** A body of two parts, each with its header and payload. *)
Definition two_part_body (B pre1 post1 P1 H2 P2 : JSString) : Buffer :=
  framed_header B pre1 post1 ++ CRLFCRLF ++ P1 ++ CRLF
    ++ str "--" ++ B ++ CRLF ++ H2 ++ CRLFCRLF ++ P2 ++ CRLF
    ++ terminal_of B.

(** A record whose size text has a known unit and no number, and a world
    whose snapshot holds it. *)
Definition corrupt_record : FileRecord :=
  {| f_id := 7; f_name := str "old.dat"; f_type := str "dat";
     f_size := str "abc MB"; f_date := str "2023-11-13";
     f_path := str "uploads/0-old.dat" |}.

Definition corrupt_world : World :=
  {| blobs := ∅; data_file := Some [corrupt_record]; calls := [] |}.

(** A byte count [z] below one kibibyte is printed as its decimal digits
    and [Bytes], and that text decodes to [z]. *)
Definition bytes_check (z : Z) : bool :=
  let n := Z.to_N z in
  bool_decide (Codec.formatFileSize n = Codec.digits n ++ str " Bytes")
  && match Codec.parseFileSize (Codec.formatFileSize n) with
     | Fin v => Qeq_bool v (of_N n)
     | NaN => false
     end.


(** A piece of URL that [parseInt] reads as [NaN] from its first code
    unit: empty, or starting with something that is neither a digit, nor
    white space, nor a sign. *)
Definition starts_no_number (t : JSString) : Prop :=
  match t with
  | [] => True
  | c :: _ =>
      Codec.is_digit c = false ∧ Codec.is_space c = false
      ∧ c ≠ "-"%char ∧ c ≠ "+"%char
  end.


(** The identifiers of the records are pairwise distinct. *)
Definition distinct_ids (files : list FileRecord) : Prop :=
  NoDup (f_id <$> files).

(** * Properties *)

(** ** Searching *)

Lemma startsWith_prefix pat s :
  JS.startsWith pat s = true ↔ ∃ t, s = pat ++ t.
Proof.
  revert s. induction pat as [|p pat IH]; intros s; simpl.
  - split; [eauto | done].
  - destruct s as [|c s].
    + split; [done | intros [t Ht]; discriminate].
    + rewrite andb_true_iff, Ascii.eqb_eq, IH. split.
      * intros [-> [t ->]]. eauto.
      * intros [t Ht]. injection Ht as -> ->. eauto.
Qed.

Lemma startsWith_app pat t : JS.startsWith pat (pat ++ t) = true.
Proof. apply startsWith_prefix. eauto. Qed.

Lemma startsWith_app_l p q s :
  JS.startsWith (p ++ q) s = true → JS.startsWith p s = true.
Proof.
  rewrite !startsWith_prefix. intros [t ->]. exists (q ++ t).
  by rewrite <- app_assoc.
Qed.

Lemma startsWith_short pat s :
  length s < length pat → JS.startsWith pat s = false.
Proof.
  intros Hlen. apply not_true_is_false. rewrite startsWith_prefix.
  intros [t ->]. rewrite length_app in Hlen. lia.
Qed.

(** An occurrence that fits inside [s] does not depend on what follows. *)
Lemma startsWith_within pat s t :
  length pat ≤ length s →
  JS.startsWith pat (s ++ t) = JS.startsWith pat s.
Proof.
  revert s. induction pat as [|p pat IH]; intros s Hlen; [done|].
  destruct s as [|c s]; simpl in *; [lia|].
  rewrite IH by lia. done.
Qed.

Lemma indexOf_Some pat s i :
  JS.indexOf pat s = Some i →
  JS.startsWith pat (drop i s) = true
  ∧ ∀ j, j < i → JS.startsWith pat (drop j s) = false.
Proof.
  revert i. induction s as [|c s IH]; intros i; simpl.
  - destruct (JS.startsWith pat []) eqn:E; [|done].
    intros [= <-]. split; [done | lia].
  - destruct (JS.startsWith pat (c :: s)) eqn:E.
    + intros [= <-]. split; [done | lia].
    + destruct (JS.indexOf pat s) as [k|]; [|done].
      intros [= <-]. destruct (IH k eq_refl) as [H1 H2].
      split; [done|]. intros [|j] Hj; [done|]. apply H2. lia.
Qed.

Lemma indexOf_None pat s :
  JS.indexOf pat s = None ↔ ∀ j, JS.startsWith pat (drop j s) = false.
Proof.
  induction s as [|c s IH]; simpl.
  - destruct (JS.startsWith pat []) eqn:E.
    + split; [done|]. intros H. specialize (H 0). simpl in H. congruence.
    + split; [|done]. intros _ j. by rewrite drop_nil.
  - destruct (JS.startsWith pat (c :: s)) eqn:E.
    + split; [done|]. intros H. specialize (H 0). simpl in H. congruence.
    + rewrite fmap_None, IH. split.
      * intros H [|j]; [done | apply H].
      * intros H j. apply (H (S j)).
Qed.

(** The first occurrence, from the occurrences. *)
Lemma indexOf_first pat s i :
  JS.startsWith pat (drop i s) = true →
  (∀ j, j < i → JS.startsWith pat (drop j s) = false) →
  JS.indexOf pat s = Some i.
Proof.
  intros Hi Hlt. destruct (JS.indexOf pat s) as [k|] eqn:E.
  - apply indexOf_Some in E as [Hk Hk'].
    destruct (decide (k < i)) as [?|?]; [rewrite Hlt in Hk; done|].
    destruct (decide (i < k)) as [?|?]; [rewrite Hk' in Hi; done|].
    f_equal. lia.
  - rewrite indexOf_None in E. rewrite E in Hi. done.
Qed.

Lemma lastIndexOf_None pat s :
  JS.lastIndexOf pat s = None ↔ ∀ j, JS.startsWith pat (drop j s) = false.
Proof.
  induction s as [|c s IH]; simpl.
  - destruct (JS.startsWith pat []) eqn:E.
    + split; [done|]. intros H. specialize (H 0). simpl in H. congruence.
    + split; [|done]. intros _ j. by rewrite drop_nil.
  - destruct (JS.lastIndexOf pat s) as [k|] eqn:Ek.
    + split; [done|]. intros H. destruct IH as [_ IH].
      discriminate IH. intros j. apply (H (S j)).
    + destruct (JS.startsWith pat (c :: s)) eqn:E.
      * split; [done|]. intros H. specialize (H 0). simpl in H. congruence.
      * split; [|done]. intros _ [|j]; [done|]. by apply IH.
Qed.

Lemma lastIndexOf_Some pat s i :
  JS.lastIndexOf pat s = Some i →
  JS.startsWith pat (drop i s) = true ∧ i ≤ length s
  ∧ ∀ j, i < j → j ≤ length s → JS.startsWith pat (drop j s) = false.
Proof.
  revert i. induction s as [|c s IH]; intros i; simpl.
  - destruct (JS.startsWith pat []) eqn:E; [|done].
    intros [= <-]. split; [done|]. split; [done|]. lia.
  - destruct (JS.lastIndexOf pat s) as [k|] eqn:Ek.
    + intros [= <-]. destruct (IH k eq_refl) as (H1 & H2 & H3).
      split; [done|]. split; [lia|].
      intros [|j] Hj Hj'; [lia|]. apply H3; lia.
    + destruct (JS.startsWith pat (c :: s)) eqn:E; [|done].
      intros [= <-]. split; [done|]. split; [lia|].
      intros [|j] Hj Hj'; [lia|]. simpl.
      by apply lastIndexOf_None.
Qed.

(** The last occurrence, from the occurrences. *)
Lemma lastIndexOf_last pat s i :
  JS.startsWith pat (drop i s) = true → i ≤ length s →
  (∀ j, i < j → j ≤ length s → JS.startsWith pat (drop j s) = false) →
  JS.lastIndexOf pat s = Some i.
Proof.
  intros Hi Hle Hgt. destruct (JS.lastIndexOf pat s) as [k|] eqn:E.
  - apply lastIndexOf_Some in E as (Hk & Hkl & Hk').
    destruct (decide (k < i)) as [?|?]; [rewrite Hk' in Hi by lia; done|].
    destruct (decide (i < k)) as [?|?]; [rewrite Hgt in Hk by lia; done|].
    f_equal. lia.
  - rewrite lastIndexOf_None in E. rewrite E in Hi. done.
Qed.

Lemma includes_false pat s :
  JS.includes pat s = false ↔ ∀ j, JS.startsWith pat (drop j s) = false.
Proof.
  unfold JS.includes. rewrite bool_decide_eq_false, <- indexOf_None.
  rewrite <- eq_None_not_Some. done.
Qed.

(** ** The boundaries of the decoder *)

Lemma Buffer_from_app s t :
  JS.Buffer_from (s ++ t) = JS.Buffer_from s ++ JS.Buffer_from t.
Proof. unfold JS.Buffer_from. apply bind_app. Qed.

Lemma Buffer_from_ascii7 s :
  Forall is_ascii7 s → JS.Buffer_from s = s.
Proof.
  unfold JS.Buffer_from. induction 1 as [|c s Hc _ IH]; [done|].
  rewrite bind_cons, IH. unfold JS.utf8_unit.
  apply N.ltb_lt in Hc. by rewrite Hc.
Qed.

Lemma terminal_starts_with_plain boundary :
  JS.Buffer_from (str "--" ++ boundary ++ str "--")
  = JS.Buffer_from (str "--" ++ boundary) ++ JS.Buffer_from (str "--").
Proof. by rewrite !Buffer_from_app, <- !app_assoc. Qed.

Lemma terminal_absent boundary buffer :
  JS.lastIndexOf (JS.Buffer_from (str "--" ++ boundary)) buffer = None →
  JS.lastIndexOf (JS.Buffer_from (str "--" ++ boundary ++ str "--")) buffer
  = None.
Proof.
  rewrite !lastIndexOf_None. intros Hnone j.
  apply not_true_is_false. intros Hj.
  rewrite terminal_starts_with_plain in Hj.
  apply startsWith_app_l in Hj. by rewrite Hnone in Hj.
Qed.

Lemma fileEndIndex_plain boundary buffer :
  fileEndIndex boundary buffer
  = JS.lastIndexOf (JS.Buffer_from (str "--" ++ boundary)) buffer.
Proof.
  unfold fileEndIndex.
  destruct (JS.lastIndexOf (JS.Buffer_from (str "--" ++ boundary)) buffer)
    eqn:E; [done|]. by apply terminal_absent.
Qed.

(** C10: the terminal boundary starts with the plain delimiter, so a buffer
    without the plain delimiter is without the terminal boundary too; the
    end offset of the payload is therefore always the last occurrence of the
    plain delimiter, and the fallback search never yields an offset. *)
Theorem fileEndIndex_fallback_dead (boundary : JSString) (buffer : Buffer) :
  let plain := JS.Buffer_from (str "--" ++ boundary) in
  let terminal := JS.Buffer_from (str "--" ++ boundary ++ str "--") in
  (∃ t, terminal = plain ++ t)
  ∧ (JS.lastIndexOf plain buffer = None → JS.lastIndexOf terminal buffer = None)
  ∧ fileEndIndex boundary buffer = JS.lastIndexOf plain buffer.
Proof.
  intros plain terminal. split; [|split].
  - eexists. apply terminal_starts_with_plain.
  - apply terminal_absent.
  - apply fileEndIndex_plain.
Qed.

(** ** Splitting *)

Lemma split_go_skip sep k cur s :
  JS.split_go sep k cur s = JS.split_go sep 0 cur (drop k s).
Proof.
  revert k. induction s as [|c s IH]; intros [|k]; try done.
  simpl. apply IH.
Qed.

Lemma split_go_none sep cur s :
  JS.indexOf sep s = None → JS.split_go sep 0 cur s = [rev cur ++ s].
Proof.
  revert cur. induction s as [|c s IH]; intros cur; simpl.
  - by rewrite app_nil_r.
  - destruct (JS.startsWith sep (c :: s)); [done|].
    rewrite fmap_None. intros H. rewrite IH by done.
    simpl. by rewrite <- app_assoc.
Qed.

Lemma split_go_first sep cur s i :
  sep ≠ [] → JS.indexOf sep s = Some i →
  JS.split_go sep 0 cur s
  = (rev cur ++ take i s) :: JS.split_go sep 0 [] (drop (i + length sep) s).
Proof.
  intros Hsep. revert cur i. induction s as [|c s IH]; intros cur i; simpl.
  - destruct sep; [done|]. done.
  - destruct (JS.startsWith sep (c :: s)) eqn:E.
    + intros [= <-]. rewrite app_nil_r, split_go_skip. simpl.
      destruct sep; [done|]. simpl. by rewrite Nat.sub_0_r.
    + destruct (JS.indexOf sep s) as [k|]; [|done]. intros [= <-].
      rewrite (IH _ k) by done. simpl. by rewrite <- app_assoc.
Qed.

(** The second piece of a split: what lies between the first separator and
    the next one, or the end. *)
Lemma split_second sep s i :
  sep ≠ [] → JS.indexOf sep s = Some i →
  JS.split sep s !! 1
  = Some (let rest := drop (i + length sep) s in
          match JS.indexOf sep rest with
          | Some j => take j rest
          | None => rest
          end).
Proof.
  intros Hsep Hi. unfold JS.split. destruct sep as [|p sep]; [done|].
  rewrite (split_go_first _ _ _ i) by done. simpl.
  destruct (JS.indexOf (p :: sep) (drop (i + S (length sep)) s)) as [j|] eqn:E.
  - by rewrite (split_go_first _ _ _ j).
  - by rewrite split_go_none.
Qed.

Lemma split_single sep s :
  sep ≠ [] → JS.indexOf sep s = None → JS.split sep s = [s].
Proof.
  intros Hsep H. unfold JS.split. destruct sep; [done|].
  by rewrite split_go_none.
Qed.

(** The pieces around a single separator. *)
Lemma split_pair sep s t :
  sep ≠ [] → JS.indexOf sep s = None → JS.indexOf sep t = None →
  JS.indexOf sep (s ++ sep ++ t) = Some (length s) →
  JS.split sep (s ++ sep ++ t) = [s; t].
Proof.
  intros Hsep Hs Ht Hi. unfold JS.split. destruct sep as [|p sep]; [done|].
  rewrite (split_go_first _ _ _ (length s)) by done.
  rewrite take_app_length. simpl rev. rewrite app_nil_l.
  rewrite drop_app_add, drop_app_length. by rewrite split_go_none.
Qed.

Lemma boundary_of_None contentType :
  boundary_of contentType = None ↔ no_boundary_parameter contentType.
Proof.
  unfold boundary_of, no_boundary_parameter.
  destruct (JS.indexOf (str "boundary=") contentType) as [i|] eqn:Ei.
  - rewrite (split_second _ _ i) by done. cbv zeta.
    change (length (str "boundary=")) with 9.
    set (rest := drop (i + 9) contentType).
    destruct (JS.indexOf (str "boundary=") rest) as [j|] eqn:Ej.
    + apply indexOf_Some in Ej as [Hj Hlt].
      destruct (take j rest) as [|c b] eqn:Et.
      * split; [intros _ | done]. destruct j as [|j]; [by right|].
        destruct rest; [by left | done].
      * split; [done|]. intros [Hr | Hr].
        -- rewrite Hr in Et. by rewrite take_nil in Et.
        -- destruct j as [|j]; [done|]. specialize (Hlt 0 ltac:(lia)).
           change (drop 0 rest) with rest in Hlt. congruence.
    + destruct rest as [|c b] eqn:Er.
      * split; [by left | done].
      * split; [done|]. intros [Hr | Hr]; [done|].
        rewrite indexOf_None in Ej. specialize (Ej 0).
        change (drop 0 (c :: b)) with (c :: b) in Ej. congruence.
  - rewrite split_single by done. done.
Qed.

Lemma boundary_of_framed B :
  B ≠ [] → JS.indexOf (str "boundary=") B = None →
  boundary_of (str "multipart/form-data; boundary=" ++ B) = Some B.
Proof.
  intros HB Hnone. unfold boundary_of.
  rewrite (split_second _ _ 21); [|done|by vm_compute].
  change (drop _ _) with B. cbv zeta. rewrite Hnone.
  by destruct B.
Qed.

Lemma lastIndexOf_includes pat s :
  JS.lastIndexOf pat s = None ↔ JS.includes pat s = false.
Proof. by rewrite lastIndexOf_None, includes_false. Qed.

Lemma decode_errors_malformed req err :
  decode req = Err err → MalformedRequest err.
Proof.
  unfold decode, decodePart, MalformedRequest.
  repeat (case_match; try done); intros [= <-]; tauto.
Qed.

Lemma decode_Err_iff req :
  (∃ err, decode req = Err err) ↔ framing_fault req.
Proof.
  unfold framing_fault, decode, decodePart. cbv zeta.
  set (ct := default [] (content_type req)).
  set (buffer := JS.Buffer_concat (chunks req)).
  unfold JS.toString_binary.
  destruct (JS.includes (str "multipart/form-data") ct) eqn:Hinc; cbn [negb].
  2:{ split; [auto | eauto]. }
  destruct (boundary_of ct) as [boundary|] eqn:Hb.
  2:{ apply boundary_of_None in Hb. split; [auto | eauto]. }
  assert (Hnb : ¬ no_boundary_parameter ct).
  { rewrite <- boundary_of_None. congruence. }
  destruct (JS.indexOf CRLFCRLF buffer) as [headerEnd|] eqn:Hh.
  2:{ split; [auto | eauto]. }
  pose proof (terminal_absent boundary buffer) as Hdead.
  pose proof (fileEndIndex_plain boundary buffer) as Hend.
  destruct (fileEndIndex boundary buffer) as [fileEnd|] eqn:He.
  - case_bool_decide as Hle.
    + split; [|eauto]. intros _. right. right. exists boundary.
      split; [done|]. right. exists headerEnd, fileEnd. done.
    + split; [intros [err ?]; done|].
      intros [[?|?]|[?|(b & [= <-] & [[Hp _]|(h & f & [= <-] & Hf & ?)])]];
        try done.
      * apply lastIndexOf_includes in Hp. congruence.
      * rewrite He in Hf. injection Hf as <-. lia.
  - split; [|eauto]. intros _. right. right. exists boundary.
    split; [done|]. left. rewrite <- !lastIndexOf_includes.
    split; [congruence|]. apply Hdead. congruence.
Qed.


(** ** The file name pattern *)

Lemma span_nonquote_app s t run q rest :
  Regex.span_nonquote s = (run, q :: rest) →
  Regex.span_nonquote (s ++ t) = (run, q :: rest ++ t).
Proof.
  revert run. induction s as [|c s IH]; intros run; simpl; [done|].
  destruct (Ascii.eqb c Regex.quote).
  - by intros [= <- <- <-].
  - destruct (Regex.span_nonquote s) as [run' rest'] eqn:E.
    intros [= <- ->]. by rewrite (IH run').
Qed.

Lemma span_nonquote_quote s :
  Regex.quote ∈ s →
  ∃ run rest, Regex.span_nonquote s = (run, Regex.quote :: rest).
Proof.
  induction s as [|c s IH]; [by intros ?%elem_of_nil|].
  intros Hin. simpl. destruct (Ascii.eqb c Regex.quote) eqn:E.
  - apply Ascii.eqb_eq in E as ->. eauto.
  - apply elem_of_cons in Hin as [<-|Hin].
    + by rewrite Ascii.eqb_refl in E.
    + destruct (IH Hin) as (run & rest & ->). eauto.
Qed.

Lemma span_nonquote_run run rest :
  Regex.quote ∉ run →
  Regex.span_nonquote (run ++ Regex.quote :: rest)
  = (run, Regex.quote :: rest).
Proof.
  induction run as [|c run IH]; intros Hnot; simpl.
  - done.
  - apply not_elem_of_cons in Hnot as [Hc Hrun].
    destruct (Ascii.eqb c Regex.quote) eqn:E.
    + by apply Ascii.eqb_eq in E.
    + by rewrite IH.
Qed.

Lemma span_nonquote_shape s run rest :
  Regex.span_nonquote s = (run, rest) → s = run ++ rest.
Proof.
  revert run. induction s as [|c s IH]; intros run; simpl.
  - by intros [= <- <-].
  - destruct (Ascii.eqb c Regex.quote); [by intros [= <- <-]|].
    destruct (Regex.span_nonquote s) as [run' rest'].
    intros [= <- <-]. simpl. f_equal. by apply IH.
Qed.

Lemma capture_app s t f :
  Regex.capture s = Some f → Regex.capture (s ++ t) = Some f.
Proof.
  unfold Regex.capture.
  destruct (Regex.span_nonquote s) as [[|c run] [|q rest]] eqn:E; try done.
  intros [= <-]. by rewrite (span_nonquote_app _ _ _ _ _ E).
Qed.

Lemma capture_within s t :
  Regex.quote ∈ s → Regex.capture (s ++ t) = Regex.capture s.
Proof.
  intros (run & rest & E)%span_nonquote_quote. unfold Regex.capture.
  by rewrite (span_nonquote_app _ _ _ _ _ E), E.
Qed.

Lemma capture_token name rest :
  name ≠ [] → Regex.quote ∉ name →
  Regex.capture (name ++ Regex.quote :: rest) = Some name.
Proof.
  intros Hne Hq. unfold Regex.capture. rewrite span_nonquote_run by done.
  destruct name as [|c name]; [by destruct Hne | done].
Qed.

Lemma span_nonquote_stop s run q rest :
  Regex.span_nonquote s = (run, q :: rest) → q = Regex.quote.
Proof.
  revert run. induction s as [|c s IH]; intros run; simpl; [done|].
  destruct (Ascii.eqb c Regex.quote) eqn:E.
  - intros [= <- <- <-]. by apply Ascii.eqb_eq.
  - destruct (Regex.span_nonquote s) as [run' rest'].
    intros [= <- ->]. by apply (IH run').
Qed.

Lemma capture_shape s f :
  Regex.capture s = Some f → ∃ rest, s = f ++ Regex.quote :: rest ∧ f ≠ [].
Proof.
  unfold Regex.capture.
  destruct (Regex.span_nonquote s) as [[|c run] [|q rest]] eqn:E; try done.
  intros [= <-]. exists rest. split; [|done].
  rewrite <- (span_nonquote_stop _ _ _ _ E). by apply span_nonquote_shape.
Qed.

Lemma match_here_app s t f :
  Regex.match_here s = Some f → Regex.match_here (s ++ t) = Some f.
Proof.
  unfold Regex.match_here.
  destruct (JS.startsWith Regex.filename_lit s) eqn:E; [|done].
  intros Hc. apply startsWith_prefix in E as [u ->].
  rewrite <- app_assoc, startsWith_app.
  rewrite drop_app_length in Hc |- *. by apply capture_app.
Qed.

Lemma match_here_shape s f :
  Regex.match_here s = Some f →
  ∃ rest, s = filename_token f ++ rest ∧ f ≠ [].
Proof.
  unfold Regex.match_here.
  destruct (JS.startsWith Regex.filename_lit s) eqn:E; [|done].
  apply startsWith_prefix in E as [u ->]. rewrite drop_app_length.
  intros (rest & -> & Hf)%capture_shape. exists rest. split; [|done].
  unfold filename_token. by rewrite <- !app_assoc.
Qed.

(** A match found at the head of [s ++ t] is already one of [s] when [s]
    holds a quote beyond the ten code units of the literal. *)
Lemma match_here_within s t :
  Regex.quote ∈ drop 10 s →
  Regex.match_here (s ++ t) = Regex.match_here s.
Proof.
  intros Hq. assert (10 ≤ length s) as Hlen.
  { destruct (decide (10 ≤ length s)); [done|].
    rewrite drop_ge in Hq by lia. by apply elem_of_nil in Hq. }
  unfold Regex.match_here.
  rewrite startsWith_within by done.
  change (length Regex.filename_lit) with 10.
  rewrite drop_app_le by done. by rewrite capture_within.
Qed.

Lemma match_filename_shape s f :
  Regex.match_filename s = Some f →
  ∃ a rest, s = a ++ filename_token f ++ rest ∧ f ≠ [].
Proof.
  induction s as [|c s IH]; simpl.
  - done.
  - destruct (Regex.match_here (c :: s)) eqn:E.
    + intros [= ->]. apply match_here_shape in E as (rest & E & Hf).
      by exists [], rest.
    + intros (a & rest & -> & Hf)%IH. by exists (c :: a), rest.
Qed.

(** The leftmost match of a text is still the leftmost match when more text
    follows. *)
Lemma match_filename_app s t f :
  Regex.match_filename s = Some f → Regex.match_filename (s ++ t) = Some f.
Proof.
  induction s as [|c s IH]; simpl.
  - done.
  - destruct (Regex.match_here (c :: s)) eqn:E.
    + intros [= ->]. apply (match_here_app _ t) in E. simpl in E.
      by rewrite E.
    + intros Hs. rewrite (IH Hs).
      assert (Regex.match_here (c :: s ++ t) = None) as ->; [|done].
      rewrite <- E. apply (match_here_within (c :: s)).
      apply match_filename_shape in Hs as (a & rest & -> & Hf).
      assert (c :: a ++ filename_token f ++ rest
              = (c :: a ++ Regex.filename_lit ++ f) ++ Regex.quote :: rest)
        as ->.
      { unfold filename_token. simpl. by rewrite <- !app_assoc. }
      rewrite drop_app_le.
      * apply elem_of_app. right. by apply elem_of_cons; left.
      * simpl. rewrite !length_app. simpl. lia.
Qed.

Lemma decode_Ok_filename req name data :
  decode req = Ok (name, data) →
  name = default [] (Regex.match_filename (JS.Buffer_concat (chunks req))).
Proof.
  unfold decode, decodePart, JS.toString_binary.
  repeat (case_match; try done). by intros [= <- _].
Qed.

(** C8, as stated, fails: the header block of this body (its first 48
    bytes) holds no file name token, the payload holds one, and the decoder
    returns the name found in the payload instead of the empty string. *)
Lemma payload_token_becomes_filename :
  JS.indexOf CRLFCRLF (JS.Buffer_concat (chunks payload_token_request))
  = Some 48
  ∧ Regex.match_filename
      (take 48 (JS.Buffer_concat (chunks payload_token_request))) = None
  ∧ ∃ data, decode payload_token_request = Ok (str "evil.exe", data)
            ∧ str "evil.exe" ≠ [].
Proof.
  split; [by vm_compute|]. split; [by vm_compute|].
  eexists. split; [by vm_compute | done].
Qed.

(** C8, amended: the decoder looks for the file name token in the whole
    body, header block and payload alike, and returns the leftmost one.  The
    name is empty when the body holds no token at all, and when the header
    block (the bytes before the first CR LF CR LF) holds a token the name is
    the first token of the header block. *)
Theorem filename_from_whole_body (req : Request) (name : JSString)
    (data : Buffer) :
  decode req = Ok (name, data) →
  let buffer := JS.Buffer_concat (chunks req) in
  name = default [] (Regex.match_filename buffer)
  ∧ (Regex.match_filename buffer = None → name = [])
  ∧ (∀ headerEnd f,
       JS.indexOf CRLFCRLF buffer = Some headerEnd →
       Regex.match_filename (take headerEnd buffer) = Some f →
       name = f).
Proof.
  intros Hd buffer. pose proof (decode_Ok_filename _ _ _ Hd) as Hname.
  fold buffer in Hname. split; [done|]. split.
  - intros Hnone. by rewrite Hname, Hnone.
  - intros headerEnd f _ Hf.
    apply (match_filename_app _ (drop headerEnd buffer)) in Hf.
    rewrite take_drop in Hf. by rewrite Hname, Hf.
Qed.

Lemma filename_from_whole_body_witness :
  decode sample_request = Ok (str "a.txt", str "hello")
  ∧ str "a.txt"
    = default [] (Regex.match_filename
                    (JS.Buffer_concat (chunks sample_request))).
Proof.
  assert (H : decode sample_request = Ok (str "a.txt", str "hello")).
  { vm_compute. reflexivity. }
  split; [exact H|].
  exact (proj1 (filename_from_whole_body sample_request _ _ H)).
Defined.

(** ** The synthetic single-part body *)

Lemma match_filename_skip s n :
  (∀ j, j < n → JS.startsWith Regex.filename_lit (drop j s) = false) →
  Regex.match_filename s = Regex.match_filename (drop n s).
Proof.
  revert s. induction n as [|n IH]; intros s Hno; [done|].
  destruct s as [|c s]; [done|].
  pose proof (Hno 0 ltac:(lia)) as H0.
  change (drop 0 (c :: s)) with (c :: s) in H0.
  change (Regex.match_filename (c :: s))
    with (match Regex.match_here (c :: s) with
          | Some f => Some f
          | None => Regex.match_filename s
          end).
  unfold Regex.match_here. rewrite H0.
  apply IH. intros j Hj. apply (Hno (S j)). lia.
Qed.

(** No occurrence of [pat] starts in [s] when [s] is followed by [x ++ t],
    provided none starts in [s] when it is followed by [x] alone and [x]
    lacks one code unit to hold [pat]. *)
Lemma no_occurrence_before pat s x t j :
  JS.includes pat (s ++ x) = false → length pat ≤ S (length x) →
  j < length s →
  JS.startsWith pat (drop j (s ++ x ++ t)) = false.
Proof.
  intros Hno Hlen Hj. rewrite includes_false in Hno. specialize (Hno j).
  rewrite app_assoc, drop_app_le by (rewrite length_app; lia).
  rewrite startsWith_within; [done|].
  rewrite length_drop, length_app. lia.
Qed.

Lemma dashes_shift k B t :
  0 < k →
  JS.startsWith (repeat "-"%char k ++ B) (B ++ t) = true →
  Forall (λ c, c = "-"%char) B.
Proof.
  intros Hk. induction B as [|c B IH]; [done|].
  destruct k as [|k]; [lia|].
  change (JS.startsWith (repeat "-"%char (S k) ++ c :: B) ((c :: B) ++ t))
    with (Ascii.eqb "-"%char c
          && JS.startsWith (repeat "-"%char k ++ c :: B) (B ++ t)).
  rewrite andb_true_iff, Ascii.eqb_eq. intros [<- H].
  constructor; [done|]. apply IH.
  replace (repeat "-"%char (S k) ++ B) with (repeat "-"%char k ++ "-"%char :: B);
    [done|].
  clear. induction k as [|k IHk]; simpl; [done | by rewrite IHk].
Qed.

(** The delimiter of a boundary that is not made of dashes alone occurs in
    the terminal boundary at its start only. *)
Lemma delimiter_last B j :
  (∃ c, c ∈ B ∧ c ≠ "-"%char) → 0 < j →
  JS.startsWith (str "--" ++ B) (drop j (str "--" ++ B ++ str "--")) = false.
Proof.
  intros (c & Hin & Hc) Hj. apply not_true_is_false. intros Hs.
  assert (Forall (λ c, c = "-"%char) B) as Hall; last first.
  { rewrite Forall_forall in Hall. by apply Hc, Hall. }
  destruct j as [|[|[|j]]]; [lia| | |].
  - apply (dashes_shift 1 B (str "--")); [lia|].
    change (Ascii.eqb "-"%char "-"%char
            && JS.startsWith ("-"%char :: B) (B ++ str "--") = true) in Hs.
    by apply andb_true_iff in Hs as [_ Hs].
  - by apply (dashes_shift 2 B (str "--")).
  - rewrite startsWith_short in Hs; [done|].
    simpl. rewrite length_drop, !length_app. simpl. lia.
Qed.


Section FramedBody.

Variables (H P B : JSString).

Local Abbreviation tail := (terminal_of B).
Local Abbreviation body := (part_body H P B).

Hypothesis header_clean :
  JS.includes CRLFCRLF (H ++ ["013"; "010"; "013"]%char) = false.
Hypothesis not_dashes : ∃ c, c ∈ B ∧ c ≠ "-"%char.
Hypothesis boundary_ascii : Forall is_ascii7 B.

Lemma framed_headerEnd : JS.indexOf CRLFCRLF body = Some (length H).
Proof using header_clean.
  apply indexOf_first.
  - unfold part_body. rewrite drop_app_length. apply startsWith_app.
  - intros j Hj.
    apply (no_occurrence_before CRLFCRLF H ["013"; "010"; "013"]%char
             ("010"%char :: P ++ CRLF ++ tail) j); [done | simpl; lia | done].
Qed.

Lemma framed_body_split :
  body = (H ++ CRLFCRLF ++ P ++ CRLF) ++ tail.
Proof. unfold part_body. by rewrite <- !app_assoc. Qed.

Lemma framed_fileEnd :
  fileEndIndex B body = Some (length H + 4 + length P + 2).
Proof using not_dashes boundary_ascii.
  rewrite fileEndIndex_plain, Buffer_from_ascii7.
  2:{ apply Forall_app. split; [|done].
      repeat constructor; by vm_compute. }
  assert (length (H ++ CRLFCRLF ++ P ++ CRLF) = length H + 4 + length P + 2)
    as Hlen by (rewrite !length_app; simpl; lia).
  rewrite framed_body_split. apply lastIndexOf_last.
  - rewrite <- Hlen, drop_app_length. unfold terminal_of.
    rewrite app_assoc. apply startsWith_app.
  - rewrite length_app. lia.
  - intros j Hj _. rewrite drop_app_ge by lia. rewrite Hlen.
    apply delimiter_last; [done | lia].
Qed.

Lemma framed_decodePart :
  decodePart B body = Ok (default [] (Regex.match_filename body), P).
Proof using All.
  unfold decodePart, JS.toString_binary.
  rewrite framed_headerEnd, framed_fileEnd.
  rewrite bool_decide_eq_false_2 by lia. do 2 f_equal.
  unfold JS.slice.
  replace (length H + 4 + length P + 2 - 2 - (length H + 4))
    with (length P) by lia.
  unfold part_body. rewrite app_assoc, drop_app_length'.
  - by rewrite take_app_length.
  - rewrite length_app. simpl. lia.
Qed.

End FramedBody.

Lemma framed_filename B pre post P :
  JS.includes Regex.filename_lit (framed_head B pre ++ str "filename=") = false →
  Regex.match_filename (framed_body B pre post P) = Some (str "a.txt").
Proof.
  intros Hno.
  assert (framed_body B pre post P
          = framed_head B pre ++ str "filename="
              ++ (Regex.quote :: str "a.txt" ++ Regex.quote :: post ++ CRLFCRLF
                    ++ P ++ CRLF ++ terminal_of B)) as Hbody.
  { unfold framed_body, part_body, framed_header, filename_token,
      Regex.filename_lit. by rewrite <- !app_assoc. }
  rewrite (match_filename_skip _ (length (framed_head B pre))).
  - rewrite Hbody, drop_app_length. reflexivity.
  - intros j Hj. rewrite Hbody.
    apply no_occurrence_before; [done | simpl; lia | done].
Qed.

Lemma includes_multipart B :
  JS.includes (str "multipart/form-data")
    (str "multipart/form-data; boundary=" ++ B) = true.
Proof. reflexivity. Qed.

Lemma decode_framed B pre post P :
  (∃ c, c ∈ B ∧ c ≠ "-"%char) → Forall is_ascii7 B →
  JS.includes (str "boundary=") B = false →
  JS.includes Regex.filename_lit (framed_head B pre ++ str "filename=") = false →
  JS.includes CRLFCRLF (framed_header B pre post ++ ["013"; "010"; "013"]%char)
  = false →
  decode (framed_request B pre post P) = Ok (str "a.txt", P).
Proof.
  intros Hdash Hascii Hb Hfn Hhdr. unfold decode.
  change (default [] (content_type (framed_request B pre post P)))
    with (str "multipart/form-data; boundary=" ++ B).
  rewrite includes_multipart. cbn [negb].
  rewrite boundary_of_framed.
  - change (JS.Buffer_concat (chunks (framed_request B pre post P)))
      with (framed_body B pre post P ++ []).
    rewrite app_nil_r. unfold framed_body at 1.
    rewrite framed_decodePart by done.
    fold (framed_body B pre post P). by rewrite framed_filename.
  - destruct Hdash as (c & Hc & _). intros ->. by apply elem_of_nil in Hc.
  - apply indexOf_None. by apply includes_false.
Qed.

(** C1, as stated, fails: with the boundary made of one dash, the delimiter
    occurs once more two bytes inside the terminal boundary, and the payload
    returned keeps the line terminator. *)
Lemma dash_boundary_keeps_terminator :
  decode (framed_request (str "-") form_data_pre [] (str "hello"))
  = Ok (str "a.txt", str "hello" ++ CRLF)
  ∧ decode (framed_request (str "-") form_data_pre [] (str "hello"))
    ≠ Ok (str "a.txt", str "hello").
Proof.
  assert (decode (framed_request (str "-") form_data_pre [] (str "hello"))
          = Ok (str "a.txt", str "hello" ++ CRLF)) as E by (by vm_compute).
  split; [done|]. rewrite E. intros [=].
Qed.

(** C1, amended: for every payload [P], and every boundary token [B] of
    7-bit characters that is not made of dashes alone (so it is not empty)
    and does not contain the text [boundary=], when the header text holds no
    earlier file name token and no CR LF CR LF before its end, decoding the
    synthetic body succeeds with the name [a.txt] and the payload [P]: the
    bytes from 4 past the first CR LF CR LF to 2 before the last occurrence
    of the delimiter. *)
Theorem parseMultipart_framed (B pre post P : JSString) (e : Env) (w : World) :
  (∃ c, c ∈ B ∧ c ≠ "-"%char) → Forall is_ascii7 B →
  JS.includes (str "boundary=") B = false →
  JS.includes Regex.filename_lit (framed_head B pre ++ str "filename=") = false →
  JS.includes CRLFCRLF (framed_header B pre post ++ ["013"; "010"; "013"]%char)
  = false →
  let req := framed_request B pre post P in
  let buffer := framed_body B pre post P in
  decode req = Ok (str "a.txt", P)
  ∧ (∃ headerEnd fileEnd,
       JS.indexOf CRLFCRLF buffer = Some headerEnd
       ∧ JS.lastIndexOf (str "--" ++ B) buffer = Some fileEnd
       ∧ P = JS.slice (headerEnd + 4) (fileEnd - 2) buffer)
  ∧ (write_ok e = true →
     ∃ w' file, parseMultipart req e w = (w', Ok file, Some P)
                ∧ originalname file = str "a.txt"
                ∧ size file = N.of_nat (length P)).
Proof.
  intros Hdash Hascii Hb Hfn Hhdr req buffer.
  pose proof (decode_framed B pre post P Hdash Hascii Hb Hfn Hhdr) as Hd.
  split; [done|]. split.
  - exists (length (framed_header B pre post)),
      (length (framed_header B pre post) + 4 + length P + 2).
    split; [by apply framed_headerEnd|].
    pose proof (framed_fileEnd (framed_header B pre post) P B Hdash Hascii)
      as Hend.
    rewrite fileEndIndex_plain, Buffer_from_ascii7 in Hend.
    2:{ apply Forall_app. split; [|done]. repeat constructor; by vm_compute. }
    split; [done|].
    pose proof (framed_decodePart (framed_header B pre post) P B Hhdr Hdash
                  Hascii) as Hp.
    unfold decodePart, JS.toString_binary in Hp.
    rewrite framed_headerEnd, framed_fileEnd in Hp by done.
    rewrite bool_decide_eq_false_2 in Hp by lia.
    injection Hp as Hp. exact (eq_sym Hp).
  - intros Hw. subst req. unfold parseMultipart, write_blob. rewrite Hd, Hw.
    by eexists _, _.
Qed.

Lemma parseMultipart_framed_witness :
  decode sample_request = Ok (str "a.txt", str "hello").
Proof.
  refine (proj1 (parseMultipart_framed (str "XyZ") form_data_pre []
                   (str "hello") sample_env empty_world _ _ _ _ _)).
  - exists "X"%char. split; [apply elem_of_cons; by left | done].
  - repeat constructor; vm_compute; reflexivity.
  - vm_compute; reflexivity.
  - vm_compute; reflexivity.
  - vm_compute; reflexivity.
Defined.


(** ** The size codec *)

Lemma all_from_spec k h f x :
  all_from k h f = true → (h ≤ x < h + Z.of_nat k)%Z → f x = true.
Proof.
  revert h. induction k as [|k IH]; intros h; simpl; [lia|].
  rewrite andb_true_iff. intros [Hh Hrest] Hx.
  destruct (decide (x = h)) as [->|Hne]; [done|].
  apply (IH (h + 1)%Z); [done | lia].
Qed.

Lemma reads_back_all : all_from (Z.to_nat 102401) 0 reads_back = true.
Proof. vm_cast_no_check (eq_refl true). Qed.

Lemma reads_back_range h : (0 ≤ h ≤ 102400)%Z → reads_back h = true.
Proof.
  intros Hh. apply (all_from_spec _ _ _ _ reads_back_all).
  rewrite Z2Nat.id by lia. lia.
Qed.

Lemma Number_toString_Qeq v v' :
  (v == v')%Q →
  Codec.Number_toString (Fin v) = Codec.Number_toString (Fin v').
Proof.
  intros Hv. unfold Codec.Number_toString.
  assert (Qfloor (v * 100) = Qfloor (v' * 100)) as ->; [|done].
  apply Qfloor_comp. by rewrite Hv.
Qed.

(** What [reads_back] checks, for the hundredths that the codec prints. *)
Lemma print_hundredths_reads h :
  (0 ≤ h ≤ 102400)%Z →
  ∃ v0, Codec.parseFloat (Codec.print_hundredths h) = Fin v0
        ∧ (v0 == h # 100)%Q
        ∧ JS.indexOf (str " ") (Codec.Number_toString (Fin v0)) = None
        ∧ ∃ v, Codec.parseFloat (Codec.Number_toString (Fin v0)) = Fin v
               ∧ (v == h # 100)%Q.
Proof.
  intros Hh. pose proof (reads_back_range h Hh) as Hr. unfold reads_back in Hr.
  destruct (Codec.parseFloat (Codec.print_hundredths h)) as [|v0]; [done|].
  apply andb_true_iff in Hr as [Hr H3]. apply andb_true_iff in Hr as [H1 H2].
  exists v0. split; [done|]. split; [by apply Qeq_bool_eq|].
  split; [by apply bool_decide_eq_true in H2|].
  destruct (Codec.parseFloat (Codec.Number_toString (Fin v0))) as [|v]; [done|].
  exists v. split; [done | by apply Qeq_bool_eq].
Qed.

Lemma pow1024_pow2 i : Codec.pow1024 i = (2 ^ (10 * N.of_nat i))%N.
Proof. unfold Codec.pow1024. by rewrite N.pow_mul_r. Qed.

(** The unit index is the integer logarithm: [1024^i <= n < 1024^(i+1)]. *)
Lemma log1024_bounds n :
  (0 < n)%N →
  (Codec.pow1024 (Codec.log1024 n) ≤ n
   < Codec.pow1024 (S (Codec.log1024 n)))%N.
Proof.
  intros Hn. destruct (N.log2_spec n Hn) as [Hlo Hhi].
  rewrite !pow1024_pow2. unfold Codec.log1024.
  rewrite Nat2N.inj_succ, N2Nat.id.
  pose proof (N.Div0.mul_div_le (N.log2 n) 10) as Hd.
  pose proof (N.mul_succ_div_gt (N.log2 n) 10 ltac:(done)) as Hd'.
  split.
  - etrans; [|exact Hlo]. apply N.pow_le_mono_r; [done | lia].
  - eapply N.lt_le_trans; [exact Hhi|].
    apply N.pow_le_mono_r; [done | lia].
Qed.

Lemma log1024_small n :
  (0 < n < 1024 ^ 4)%N → Codec.log1024 n < 4.
Proof.
  intros [Hn Hlt]. destruct (log1024_bounds n Hn) as [Hlo _].
  destruct (decide (Codec.log1024 n < 4)) as [|Hge]; [done|].
  assert (Codec.pow1024 4 ≤ Codec.pow1024 (Codec.log1024 n))%N.
  { unfold Codec.pow1024. apply N.pow_le_mono_r; [done | lia]. }
  change (Codec.pow1024 4) with (1024 ^ 4)%N in *. lia.
Qed.

Lemma of_N_le a b : (a ≤ b)%N → (of_N a <= of_N b)%Q.
Proof. intros H. unfold of_N. rewrite <- Zle_Qle. lia. Qed.

Lemma of_N_lt a b : (a < b)%N → (of_N a < of_N b)%Q.
Proof. intros H. unfold of_N. rewrite <- Zlt_Qlt. lia. Qed.

(** Rounding to hundredths: for a quotient [q] in [1, 1024) the integer
    printed lies in [100, 102400] and is within half a hundredth of [q]. *)
Lemma hundredths_bounds q :
  (1 <= q)%Q → (q < 1024)%Q →
  (100 ≤ Codec.hundredths q ≤ 102400)%Z
  ∧ (Qabs ((Codec.hundredths q # 100) - q) <= 1 # 200)%Q.
Proof.
  intros Hlo Hhi. unfold Codec.hundredths.
  set (x := (q * 100 + (1 # 2))%Q).
  pose proof (Qfloor_le x) as Hfl. pose proof (Qlt_floor x) as Hfu.
  set (h := Qfloor x) in *.
  assert (inject_Z h == (h # 100) * 100)%Q as Hh.
  { unfold Qeq. simpl. lia. }
  rewrite inject_Z_plus in Hfu. change (inject_Z 1) with 1%Q in Hfu.
  unfold x in Hfl, Hfu. split.
  - split.
    + assert (inject_Z 99 < inject_Z h)%Q as H99; [|rewrite <- Zlt_Qlt in H99; lia].
      change (inject_Z 99) with 99%Q. lra.
    + assert (inject_Z h < inject_Z 102401)%Q as H1; [|rewrite <- Zlt_Qlt in H1; lia].
      change (inject_Z 102401) with 102401%Q. lra.
  - apply Qabs_case; intros _; lra.
Qed.

Lemma formatFileSize_render n :
  (0 < n)%N →
  Codec.formatFileSize n
  = render (Codec.hundredths
              (of_N n / of_N (Codec.pow1024 (Codec.log1024 n))))
           (Codec.log1024 n).
Proof.
  intros Hn. unfold Codec.formatFileSize.
  destruct (N.eqb_spec n 0) as [->|_]; [lia | done].
Qed.

Lemma pow1024_pos i : (0 < of_N (Codec.pow1024 i))%Q.
Proof.
  change 0%Q with (of_N 0). apply of_N_lt. unfold Codec.pow1024.
  apply N.neq_0_lt_0, N.pow_nonzero. done.
Qed.

Lemma of_N_mul a b : (of_N (a * b) == of_N a * of_N b)%Q.
Proof. unfold of_N. by rewrite N2Z.inj_mul, inject_Z_mult. Qed.

(** The quotient that is printed lies in [1, 1024). *)
Lemma quotient_bounds n :
  (0 < n)%N →
  let q := (of_N n / of_N (Codec.pow1024 (Codec.log1024 n)))%Q in
  (1 <= q)%Q ∧ (q < 1024)%Q.
Proof.
  intros Hn q. destruct (log1024_bounds n Hn) as [Hlo Hhi].
  pose proof (pow1024_pos (Codec.log1024 n)) as Hpos. split.
  - apply Qle_shift_div_l; [done|]. rewrite Qmult_1_l. by apply of_N_le.
  - apply Qlt_shift_div_r; [done|].
    change 1024%Q with (of_N 1024). rewrite <- of_N_mul. apply of_N_lt.
    unfold Codec.pow1024 in *. rewrite Nat2N.inj_succ, N.pow_succ_r' in Hhi.
    done.
Qed.

Lemma space_split s label :
  JS.indexOf (str " ") s = None → JS.indexOf (str " ") label = None →
  JS.split (str " ") (s ++ str " " ++ label) = [s; label].
Proof.
  intros Hs Hl. apply split_pair; try done.
  apply indexOf_first.
  - rewrite drop_app_length. apply startsWith_app.
  - intros j Hj. rewrite indexOf_None in Hs. specialize (Hs j).
    rewrite drop_app_le by lia. rewrite startsWith_within; [done|].
    rewrite length_drop. simpl. lia.
Qed.

(** Decoding what the codec prints: the value read back, scaled by the
    factor of the unit. *)
Lemma parseFileSize_render h i :
  (0 ≤ h ≤ 102400)%Z → i < 4 →
  ∃ v, Codec.parseFileSize (render h i) = Fin v
       ∧ (v == (h # 100) * of_N (Codec.pow1024 i))%Q.
Proof.
  intros Hh Hi.
  destruct (print_hundredths_reads h Hh) as (v0 & E0 & _ & Hsp & v & Ev & Hv).
  unfold render. rewrite E0. unfold Codec.parseFileSize.
  assert (i = 0 ∨ i = 1 ∨ i = 2 ∨ i = 3) as [-> | [-> | [-> | ->]]] by lia.
  all: rewrite space_split by done.
  all: cbn [lookup list_lookup default from_option id]; rewrite Ev.
  all: change (Codec.size_label 0) with (str "Bytes");
    change (Codec.size_label 1) with (str "KB");
    change (Codec.size_label 2) with (str "MB");
    change (Codec.size_label 3) with (str "GB").
  - rewrite bool_decide_eq_true_2 by done.
    exists v. split; [done|]. rewrite Hv.
    change (of_N (Codec.pow1024 0)) with 1%Q. ring.
  - rewrite bool_decide_eq_false_2 by done.
    rewrite bool_decide_eq_true_2 by done.
    eexists. split; [done|]. rewrite Hv.
    change (of_N (Codec.pow1024 1)) with 1024%Q. ring.
  - rewrite bool_decide_eq_false_2 by done.
    rewrite bool_decide_eq_false_2 by done.
    rewrite bool_decide_eq_true_2 by done.
    eexists. split; [done|]. rewrite Hv.
    change (of_N (Codec.pow1024 2)) with (1024 * 1024)%Q. ring.
  - rewrite bool_decide_eq_false_2 by done.
    rewrite bool_decide_eq_false_2 by done.
    rewrite bool_decide_eq_false_2 by done.
    rewrite bool_decide_eq_true_2 by done.
    eexists. split; [done|]. rewrite Hv.
    change (of_N (Codec.pow1024 3)) with (1024 * 1024 * 1024)%Q. ring.
Qed.

(** What the codec prints for a byte count below 1 TiB, and how it reads
    back: the unit index [k], the hundredths [h] and the decoded value. *)
Lemma codec_roundtrip n :
  (0 < n < 1024 ^ 4)%N →
  ∃ k h v,
    k = Codec.log1024 n ∧ k < 4
    ∧ (Codec.pow1024 k ≤ n < Codec.pow1024 (S k))%N
    ∧ (100 ≤ h ≤ 102400)%Z
    ∧ (Qabs ((h # 100) - of_N n / of_N (Codec.pow1024 k)) <= 1 # 200)%Q
    ∧ Codec.formatFileSize n = render h k
    ∧ Codec.parseFileSize (Codec.formatFileSize n) = Fin v
    ∧ (v == (h # 100) * of_N (Codec.pow1024 k))%Q
    ∧ (Qabs (v - of_N n) <= (1 # 200) * of_N (Codec.pow1024 k))%Q.
Proof.
  intros [Hn Hlt].
  pose proof (log1024_small n (conj Hn Hlt)) as Hk.
  pose proof (log1024_bounds n Hn) as Hb.
  destruct (quotient_bounds n Hn) as [Hq1 Hq2].
  destruct (hundredths_bounds _ Hq1 Hq2) as [Hh Herr].
  set (k := Codec.log1024 n) in *.
  set (h := Codec.hundredths (of_N n / of_N (Codec.pow1024 k))) in *.
  destruct (parseFileSize_render h k ltac:(lia) Hk) as (v & Ev & Hv).
  exists k, h, v. rewrite formatFileSize_render by done. fold k h.
  repeat (split; [done|]).
  rewrite Hv. pose proof (pow1024_pos k) as Hpos.
  set (p := of_N (Codec.pow1024 k)) in *.
  assert ((h # 100) * p - of_N n == ((h # 100) - of_N n / p) * p)%Q as ->.
  { field. lra. }
  rewrite Qabs_Qmult, (Qabs_pos p) by lra.
  apply Qmult_le_compat_r; [done | lra].
Qed.

Lemma pow1024_mono i j : i ≤ j → (Codec.pow1024 i ≤ Codec.pow1024 j)%N.
Proof. intros H. unfold Codec.pow1024. apply N.pow_le_mono_r; [done | lia]. Qed.

(** C6, as stated, fails: one tebibyte is not rendered in GB; the unit index
    is 4 and the label looked up past the end of the scale is printed as
    undefined. *)
Lemma formatFileSize_past_scale :
  (1024 ^ 3 ≤ 1024 ^ 4)%N
  ∧ Codec.formatFileSize (1024 ^ 4) = str "1 undefined"
  ∧ ¬ ∃ v, Codec.formatFileSize (1024 ^ 4) = v ++ str " GB".
Proof.
  split; [by vm_compute|].
  assert (Codec.formatFileSize (1024 ^ 4) = str "1 undefined") as E
    by (by vm_compute).
  split; [done|]. rewrite E. intros [v Hv].
  apply (f_equal (@rev ascii)) in Hv. rewrite rev_app_distr in Hv.
  vm_compute in Hv. discriminate Hv.
Qed.

(** C6, amended: [formatFileSize(0)] is the text [0 Bytes]; for a byte count
    [0 < bytes < 1024^4] the unit is the one of the largest index [k] with
    [1024^k <= bytes], it is on the scale Bytes, KB, MB, GB, the quotient is
    rounded to the nearest hundredth, and the text is that number, a space
    and the label of the unit. *)
Theorem formatFileSize_unit_and_rounding (n : N) :
  Codec.formatFileSize 0 = str "0 Bytes"
  ∧ ((0 < n < 1024 ^ 4)%N →
     ∃ k label h,
       Codec.sizes !! k = Some label
       ∧ (Codec.pow1024 k ≤ n)%N
       ∧ (∀ j, (Codec.pow1024 j ≤ n)%N → j ≤ k)
       ∧ (Qabs ((h # 100) - of_N n / of_N (Codec.pow1024 k)) <= 1 # 200)%Q
       ∧ Codec.formatFileSize n
         = Codec.Number_toString (Fin (h # 100)) ++ str " " ++ label).
Proof.
  split; [done|]. intros Hn.
  destruct (codec_roundtrip n Hn)
    as (k & h & v & _ & Hk & [Hlo Hhi] & Hh & Herr & Hfmt & _).
  destruct (Codec.sizes !! k) as [label|] eqn:El.
  2:{ apply lookup_ge_None in El. simpl in El. lia. }
  exists k, label, h. split; [done|]. split; [done|]. split.
  - intros j Hj. destruct (decide (j ≤ k)) as [|Hgt]; [done|].
    pose proof (pow1024_mono (S k) j ltac:(lia)). lia.
  - split; [done|]. rewrite Hfmt. unfold render, Codec.size_label.
    rewrite El.
    destruct (print_hundredths_reads h ltac:(lia)) as (v0 & -> & Hv0 & _).
    by rewrite (Number_toString_Qeq _ _ Hv0).
Qed.

Lemma formatFileSize_unit_and_rounding_witness :
  ∃ k label h,
    Codec.sizes !! k = Some label
    ∧ (Codec.pow1024 k ≤ 1536)%N
    ∧ (∀ j, (Codec.pow1024 j ≤ 1536)%N → j ≤ k)
    ∧ (Qabs ((h # 100) - of_N 1536 / of_N (Codec.pow1024 k)) <= 1 # 200)%Q
    ∧ Codec.formatFileSize 1536
      = Codec.Number_toString (Fin (h # 100)) ++ str " " ++ label.
Proof.
  apply (proj2 (formatFileSize_unit_and_rounding 1536)).
  split; reflexivity.
Defined.

(** C2, as stated, fails: one tebibyte is printed with an undefined unit,
    which decodes to 0, farther from the byte count than a hundredth of any
    unit factor. *)
Lemma parse_format_past_scale :
  Codec.parseFileSize (Codec.formatFileSize (1024 ^ 4)) = Fin 0
  ∧ ∀ f, f ∈ [1; 1024; 1024 ^ 2; 1024 ^ 3]%N →
         ¬ (Qabs (0 - of_N (1024 ^ 4)) <= (1 # 100) * of_N f)%Q.
Proof.
  split; [by vm_compute|]. intros f Hf Hle.
  apply Qle_bool_iff in Hle.
  repeat (apply elem_of_cons in Hf as [->|Hf];
          [vm_compute in Hle; discriminate Hle|]).
  by apply elem_of_nil in Hf.
Qed.

(** C2, amended: for every byte count [n < 1024^4],
    [parseFileSize(formatFileSize(n))] is a number that differs from [n] by
    at most 0.01 times the byte factor of the unit selected for [n], and the
    round trip is exact at [n = 0]. *)
Theorem parse_format_within_tolerance (n : N) :
  (n < 1024 ^ 4)%N →
  ∃ v, Codec.parseFileSize (Codec.formatFileSize n) = Fin v
       ∧ (Qabs (v - of_N n) <= (1 # 100) * of_N (unit_factor n))%Q
       ∧ (n = 0%N → (v == 0)%Q).
Proof.
  intros Hlt. destruct (N.eq_dec n 0%N) as [->|Hne].
  - eexists. split; [by vm_compute|]. split; [|done].
    apply Qle_bool_iff. by vm_compute.
  - destruct (codec_roundtrip n ltac:(lia))
      as (k & h & v & -> & _ & _ & _ & _ & _ & Ev & _ & Herr).
    exists v. split; [done|]. split; [|done].
    unfold unit_factor. eapply Qle_trans; [exact Herr|].
    pose proof (pow1024_pos (Codec.log1024 n)).
    apply Qmult_le_compat_r; [done | lra].
Qed.

Lemma parse_format_within_tolerance_witness :
  ∃ v, Codec.parseFileSize (Codec.formatFileSize 1030) = Fin v
       ∧ (Qabs (v - of_N 1030) <= (1 # 100) * of_N (unit_factor 1030))%Q
       ∧ (1030%N = 0%N → (v == 0)%Q).
Proof.
  apply (parse_format_within_tolerance 1030). reflexivity.
Defined.

(** ** The record of an upload *)

Lemma indexOf_char_None c s :
  c ∉ s → JS.indexOf [c] s = None.
Proof.
  induction s as [|x s IH]; intros Hc; [done|].
  apply not_elem_of_cons in Hc as [Hne Hc]. simpl.
  destruct (Ascii.eqb c x) eqn:E; [by apply Ascii.eqb_eq in E|].
  simpl. by rewrite IH.
Qed.

(** A name without a dot is its own extension. *)
Lemma extension_without_dot name :
  name ≠ [] → "."%char ∉ name → extension name = name.
Proof.
  intros Hne Hdot. unfold extension.
  rewrite split_single; [|done|by apply indexOf_char_None].
  by destruct name.
Qed.

(** C9 at a file name without extension: the upload of [README] is accepted
    and its record has the type [README], not [unknown]; the record carries
    the formatted size of the five bytes written and the path of the blob,
    and is the last record of the snapshot that is saved. *)
Theorem upload_without_extension_type :
  ∃ w' rec,
    handleUpload readme_request sample_env empty_world
    = (w', sendJSON (UploadedBody rec) 200)
    ∧ f_name rec = str "README"
    ∧ f_type rec = str "README"
    ∧ f_type rec ≠ str "unknown"
    ∧ f_size rec = str "5 Bytes"
    ∧ f_path rec = str "uploads/lozq1x2k9f3ab-README"
    ∧ data_file w' = Some [rec].
Proof.
  eexists _, _. split; [by vm_compute|]. by repeat split.
Qed.

(** ** Quota and rollback *)

Lemma num_gt_Fin a b : num_gt (Fin a) (Fin b) = true ↔ (b < a)%Q.
Proof.
  unfold num_gt. rewrite negb_true_iff, <- not_true_iff_false, Qle_bool_iff.
  split; [apply Qnot_le_lt | apply Qlt_not_le].
Qed.


Lemma findIndex_lookup fileId files i :
  findIndex fileId files = Some i →
  ∃ f, files !! i = Some f ∧ f_id f = fileId.
Proof.
  revert i. induction files as [|f files IH]; intros i; simpl; [done|].
  case_bool_decide as Hid.
  - intros [= <-]. eauto.
  - destruct (findIndex fileId files) as [k|]; [|done].
    intros [= <-]. apply (IH k eq_refl).
Qed.

Lemma findIndex_elem fileId files rec :
  rec ∈ files → f_id rec = fileId → is_Some (findIndex fileId files).
Proof.
  intros Hin Hid. induction Hin as [rec files|rec f files _ IH]; simpl.
  - rewrite bool_decide_eq_true_2 by done. eauto.
  - case_bool_decide; [eauto|]. destruct (IH Hid) as [k ->]. eauto.
Qed.





Lemma total_of_snoc files r :
  total_of (files ++ [r])
  = num_add (total_of files) (Codec.parseFileSize (f_size r)).
Proof. unfold total_of. by rewrite foldl_app. Qed.

(** What an upload leaves in the snapshot: the former records, and the new
    record after them when the upload is accepted and saved. *)
Lemma stored_upload_step w file e :
  stored (upload_step w (file, e))
  = if num_gt (num_add (total_of (stored w)) (Fin (of_N (size file))))
         (Fin (of_N totalBytes))
    then stored w
    else if save_ok e then stored w ++ [newFile e file] else stored w.
Proof.
  unfold upload_step, uploadCallback, getTotalStorageUsed, loadData, saveData,
    stored, loadData, unlink_if_exists.
  cbn [fst snd log_call data_file blobs calls].
  destruct (num_gt _ _);
    [by destruct (bool_decide _); destruct (unlink_ok e)|].
  by destruct (save_ok e).
Qed.


(** The decoded size of what the codec prints for an admissible byte count:
    a number that is not negative and exceeds the count by less than the
    slack. *)
Lemma decoded_size n :
  (n ≤ totalBytes)%N →
  ∃ v, Codec.parseFileSize (Codec.formatFileSize n) = Fin v
       ∧ (0 <= v)%Q ∧ (v <= of_N n + quota_slack)%Q.
Proof.
  intros Hn. destruct (N.eq_dec n 0%N) as [->|Hne].
  - eexists. split; [by vm_compute|].
    split; apply Qle_bool_iff; by vm_compute.
  - assert (0 < n < 1024 ^ 4)%N as Hr.
    { split; [lia|]. eapply N.le_lt_trans; [exact Hn | by vm_compute]. }
    destruct (codec_roundtrip n Hr)
      as (k & h & v & _ & Hk & _ & Hh & _ & _ & Ev & Hv & Herr).
    exists v. split; [done|].
    pose proof (pow1024_pos k) as Hpos.
    assert (of_N (Codec.pow1024 k) <= of_N (1024 ^ 3))%Q as Hp.
    { apply of_N_le. apply (pow1024_mono k 3). lia. }
    set (p := of_N (Codec.pow1024 k)) in *. split.
    + rewrite Hv. apply Qmult_le_0_compat; [|lra].
      unfold Qle. simpl. lia.
    + unfold quota_slack. revert Herr. apply Qabs_case; intros Hs Herr; lra.
Qed.

Lemma of_N_le_inv a b : (of_N a <= of_N b)%Q → (a ≤ b)%N.
Proof. unfold of_N. rewrite <- Zle_Qle. lia. Qed.

Lemma run_uploads_snoc xs x w :
  run_uploads (xs ++ [x]) w = upload_step (run_uploads xs w) x.
Proof. unfold run_uploads. by rewrite foldl_app. Qed.

(** The usage that the quota check computes stays a number between 0 and
    the capacity plus the slack, whatever uploads are made. *)
Lemma usage_invariant xs :
  ∃ used, total_of (stored (run_uploads xs empty_world)) = Fin used
          ∧ (0 <= used)%Q ∧ (used <= of_N totalBytes + quota_slack)%Q.
Proof.
  induction xs as [|[file e] xs IH] using rev_ind.
  - exists 0%Q. split; [done|]. split; apply Qle_bool_iff; by vm_compute.
  - destruct IH as (used & Hused & H0 & Hcap).
    rewrite run_uploads_snoc, stored_upload_step, Hused. cbn [num_add].
    destruct (num_gt _ _) eqn:Hgt; [by exists used|].
    destruct (save_ok e); [|by exists used].
    assert (used + of_N (size file) <= of_N totalBytes)%Q as Hfit.
    { apply Qnot_lt_le. intros Hlt. apply num_gt_Fin in Hlt. congruence. }
    assert (size file ≤ totalBytes)%N as Hsize.
    { apply of_N_le_inv. lra. }
    destruct (decoded_size _ Hsize) as (v & Ev & Hv0 & Hv).
    exists (used + v)%Q. rewrite total_of_snoc, Hused.
    cbn [newFile f_size]. rewrite Ev. split; [done|]. split; lra.
Qed.




(** An upload request that decodes and whose blob is written behaves as
    [upload_step] on the decoded file. *)
Lemma handleUpload_upload_step req e w filename fileData :
  decode req = Ok (filename, fileData) → write_ok e = true →
  (handleUpload req e w).1
  = upload_step w
      ({| originalname := filename;
          path := path_join (str "uploads") (uid e ++ str "-" ++ filename);
          size := N.of_nat (length fileData) |}, e).
Proof.
  intros Hd Hw. unfold handleUpload, parseMultipart, write_blob, upload_step.
  by rewrite Hd, Hw.
Qed.

(** * Further properties *)

(** ** The data region of the decoder *)

Lemma headerEnd_general H rest :
  JS.includes CRLFCRLF (H ++ ["013"; "010"; "013"]%char) = false →
  JS.indexOf CRLFCRLF (H ++ CRLFCRLF ++ rest) = Some (length H).
Proof.
  intros Hclean. apply indexOf_first.
  - rewrite drop_app_length. apply startsWith_app.
  - intros j Hj.
    apply (no_occurrence_before CRLFCRLF H ["013"; "010"; "013"]%char
             ("010"%char :: rest) j); [done | simpl; lia | done].
Qed.

Lemma fileEnd_general X B :
  (∃ c, c ∈ B ∧ c ≠ "-"%char) → Forall is_ascii7 B →
  fileEndIndex B (X ++ terminal_of B) = Some (length X).
Proof.
  intros Hdash Hascii. rewrite fileEndIndex_plain, Buffer_from_ascii7.
  2:{ apply Forall_app. split; [|done]. repeat constructor; by vm_compute. }
  apply lastIndexOf_last.
  - rewrite drop_app_length. unfold terminal_of.
    rewrite app_assoc. apply startsWith_app.
  - rewrite length_app. lia.
  - intros j Hj _. rewrite drop_app_ge by lia.
    apply delimiter_last; [done | lia].
Qed.

(** The decoder on a body made of a header block, the blank line, a data
    region and the terminal boundary. *)
Lemma decodePart_region H R B :
  JS.includes CRLFCRLF (H ++ ["013"; "010"; "013"]%char) = false →
  (∃ c, c ∈ B ∧ c ≠ "-"%char) → Forall is_ascii7 B →
  decodePart B (region_body H R B)
  = match R with
    | [] => Err NoFileBoundaries
    | _ :: _ =>
        Ok (default [] (Regex.match_filename (region_body H R B)),
            take (length R - 2) R)
    end.
Proof.
  intros Hclean Hdash Hascii.
  assert (JS.indexOf CRLFCRLF (region_body H R B) = Some (length H)) as Hh.
  { by apply headerEnd_general. }
  assert (fileEndIndex B (region_body H R B)
          = Some (length H + 4 + length R)) as He.
  { replace (region_body H R B) with ((H ++ CRLFCRLF ++ R) ++ terminal_of B)
      by (unfold region_body; by rewrite <- !app_assoc).
    rewrite fileEnd_general by done. f_equal.
    rewrite !length_app. simpl. lia. }
  unfold decodePart, JS.toString_binary. rewrite Hh, He.
  destruct R as [|r R].
  - by rewrite bool_decide_eq_true_2 by (simpl; lia).
  - rewrite bool_decide_eq_false_2 by (simpl; lia). do 2 f_equal.
    unfold JS.slice, region_body.
    rewrite app_assoc, drop_app_length' by (rewrite length_app; simpl; lia).
    rewrite take_app_le by (simpl; lia). f_equal. simpl. lia.
Qed.

Lemma match_filename_here s f :
  Regex.match_here s = Some f → Regex.match_filename s = Some f.
Proof.
  intros E. destruct s as [|c s]; [vm_compute in E; discriminate E|].
  change (Regex.match_filename (c :: s))
    with (match Regex.match_here (c :: s) with
          | Some g => Some g
          | None => Regex.match_filename s
          end).
  by rewrite E.
Qed.

Lemma named_filename B pre name post rest :
  name ≠ [] → Regex.quote ∉ name →
  JS.includes Regex.filename_lit (framed_head B pre ++ str "filename=") = false →
  Regex.match_filename (named_header B pre name post ++ rest) = Some name.
Proof.
  intros Hne Hq Hno.
  assert (named_header B pre name post ++ rest
          = framed_head B pre ++ str "filename="
              ++ (Regex.quote :: name ++ Regex.quote :: post ++ rest)) as Hbody.
  { unfold named_header, filename_token, Regex.filename_lit.
    by rewrite <- !app_assoc. }
  rewrite (match_filename_skip _ (length (framed_head B pre))).
  - rewrite Hbody, drop_app_length. apply match_filename_here.
    unfold Regex.match_here.
    change (str "filename=" ++ Regex.quote :: name ++ Regex.quote :: post ++ rest)
      with (Regex.filename_lit ++ name ++ Regex.quote :: post ++ rest).
    rewrite startsWith_app, drop_app_length. by apply capture_token.
  - intros j Hj. rewrite Hbody.
    apply no_occurrence_before; [done | simpl; lia | done].
Qed.

(** X1: for a well-framed body whose part header names the file [name],
    whatever the chunks it arrives in, the decoder returns [name] and the
    data region (the bytes between the blank line and the last delimiter)
    without its last two bytes, whatever these are; a region of one or two
    bytes gives an empty file, and an empty region is refused. *)
Theorem decode_named_region (B pre name post R : JSString)
    (body_chunks : list Buffer) :
  (∃ c, c ∈ B ∧ c ≠ "-"%char) → Forall is_ascii7 B →
  JS.includes (str "boundary=") B = false →
  name ≠ [] → Regex.quote ∉ name →
  JS.includes Regex.filename_lit (framed_head B pre ++ str "filename=") = false →
  JS.includes CRLFCRLF
    (named_header B pre name post ++ ["013"; "010"; "013"]%char) = false →
  JS.Buffer_concat body_chunks = region_body (named_header B pre name post) R B →
  decode {| content_type := Some (str "multipart/form-data; boundary=" ++ B);
            chunks := body_chunks |}
  = match R with
    | [] => Err NoFileBoundaries
    | _ :: _ => Ok (name, take (length R - 2) R)
    end.
Proof.
  intros Hdash Hascii Hb Hne Hq Hfn Hhdr Hbody. unfold decode.
  cbn [content_type chunks default from_option id].
  rewrite includes_multipart. cbn [negb].
  rewrite boundary_of_framed.
  - rewrite Hbody, decodePart_region by done.
    unfold region_body. by rewrite named_filename.
  - destruct Hdash as (c & Hc & _). intros ->. by apply elem_of_nil in Hc.
  - apply indexOf_None. by apply includes_false.
Qed.

Lemma decode_named_region_witness :
  decode {| content_type := Some (str "multipart/form-data; boundary=" ++ str "XyZ");
            chunks := [named_header (str "XyZ") form_data_pre (str "x.bin") [];
                       CRLFCRLF ++ str "ab"; str "c" ++ terminal_of (str "XyZ")] |}
  = Ok (str "x.bin", str "a").
Proof.
  refine (decode_named_region (str "XyZ") form_data_pre (str "x.bin") []
            (str "abc") _ _ _ _ _ _ _ _ _).
  - exists "X"%char. split; [apply elem_of_cons; by left | done].
  - repeat constructor; vm_compute; reflexivity.
  - vm_compute; reflexivity.
  - discriminate.
  - vm_compute. intros Hin. by repeat (apply elem_of_cons in Hin as [?|Hin]);
      try apply elem_of_nil in Hin.
  - vm_compute; reflexivity.
  - vm_compute; reflexivity.
  - vm_compute; reflexivity.
Defined.

(** X2: in a body of two parts the decoder honours the first header and the
    last delimiter only: the file returned has the name of the first part
    and its bytes are the payload of the first part followed by the
    delimiter line, the header and the payload of the second part. *)
Theorem decode_two_parts (B pre1 post1 P1 H2 P2 : JSString) :
  (∃ c, c ∈ B ∧ c ≠ "-"%char) → Forall is_ascii7 B →
  JS.includes (str "boundary=") B = false →
  JS.includes Regex.filename_lit (framed_head B pre1 ++ str "filename=") = false →
  JS.includes CRLFCRLF
    (framed_header B pre1 post1 ++ ["013"; "010"; "013"]%char) = false →
  decode {| content_type := Some (str "multipart/form-data; boundary=" ++ B);
            chunks := [two_part_body B pre1 post1 P1 H2 P2] |}
  = Ok (str "a.txt",
        P1 ++ CRLF ++ str "--" ++ B ++ CRLF ++ H2 ++ CRLFCRLF ++ P2).
Proof.
  intros Hdash Hascii Hb Hfn Hhdr.
  rewrite <- (decode_framed B pre1 post1
                (P1 ++ CRLF ++ str "--" ++ B ++ CRLF ++ H2 ++ CRLFCRLF ++ P2))
    by done.
  unfold framed_request, framed_body, part_body, two_part_body.
  do 3 f_equal. by rewrite <- !app_assoc.
Qed.

Lemma decode_two_parts_witness :
  decode {| content_type := Some (str "multipart/form-data; boundary=" ++ str "XyZ");
            chunks := [two_part_body (str "XyZ") form_data_pre [] (str "one")
                         (str "Content-Disposition: form-data; name=f2")
                         (str "two")] |}
  = Ok (str "a.txt",
        str "one" ++ CRLF ++ str "--" ++ str "XyZ" ++ CRLF
          ++ str "Content-Disposition: form-data; name=f2" ++ CRLFCRLF
          ++ str "two").
Proof.
  refine (decode_two_parts (str "XyZ") form_data_pre [] (str "one") _
            (str "two") _ _ _ _ _).
  - exists "X"%char. split; [apply elem_of_cons; by left | done].
  - repeat constructor; vm_compute; reflexivity.
  - vm_compute; reflexivity.
  - vm_compute; reflexivity.
  - vm_compute; reflexivity.
Defined.

(** ** The upload route, case by case *)







(** X5: a request with a framing fault is answered 500 with the message of
    the decoder after [Upload failed: ], and nothing is read, written or
    removed: the world is the one before the request. *)
Theorem upload_malformed (req : Request) (e : Env) (w : World) :
  framing_fault req →
  ∃ err, MalformedRequest err
         ∧ handleUpload req e w
           = (w, sendJSON (ErrorBody (str "Upload failed: " ++ err_message err))
                   500).
Proof.
  intros [err Herr]%decode_Err_iff. exists err.
  split; [by apply decode_errors_malformed in Herr|].
  unfold handleUpload, parseMultipart. by rewrite Herr.
Qed.

Lemma upload_malformed_witness :
  ∃ err, MalformedRequest err
         ∧ handleUpload {| content_type := None; chunks := [] |} sample_env
             empty_world
           = (empty_world,
              sendJSON (ErrorBody (str "Upload failed: " ++ err_message err))
                500).
Proof.
  apply upload_malformed. left. left. reflexivity.
Defined.






(** ** The delete and download routes *)

Lemma findIndex_first fileId files i :
  findIndex fileId files = Some i →
  ∀ j f, j < i → files !! j = Some f → f_id f ≠ fileId.
Proof.
  revert i. induction files as [|g files IH]; intros i; simpl; [done|].
  case_bool_decide as Hid.
  - intros [= <-] j f Hj. lia.
  - destruct (findIndex fileId files) as [k|]; [|done].
    intros [= <-] [|j] f Hj; simpl.
    + by intros [= <-].
    + apply (IH k eq_refl). lia.
Qed.

Lemma findIndex_None fileId files :
  findIndex fileId files = None ↔ ∀ f, f ∈ files → f_id f ≠ fileId.
Proof.
  induction files as [|g files IH]; simpl.
  - split; [by intros _ f ?%elem_of_nil | done].
  - case_bool_decide as Hid.
    + split; [done|]. intros H. destruct (H g); [by left | done].
    + rewrite fmap_None, IH. split.
      * intros H f [->|Hf]%elem_of_cons; [done | by apply H].
      * intros H f Hf. apply H. by right.
Qed.

Lemma find_file_None fileId files :
  (∀ f, f ∈ files → f_id f ≠ fileId) → find_file fileId files = None.
Proof.
  unfold find_file. induction files as [|g files IH]; intros H; simpl; [done|].
  rewrite bool_decide_eq_false_2 by (apply H; by left).
  apply IH. intros f Hf. apply H. by right.
Qed.

Lemma handleDelete_saved fileId e w i deleted :
  findIndex fileId (stored w) = Some i → stored w !! i = Some deleted →
  save_ok e = true →
  handleDelete fileId e w
  = ({| blobs := if unlink_ok e then blobs w ∖ {[ f_path deleted ]}
                 else blobs w;
        data_file := Some (splice_out i (stored w));
        calls := UnlinkBlob (f_path deleted)
                   :: WriteData (splice_out i (stored w))
                   :: ReadData :: calls w |},
     sendJSON DeletedBody 200, splice_out i (stored w)).
Proof.
  intros Hi Hd Hs. unfold handleDelete, loadData, saveData.
  unfold stored, loadData in *. cbn [snd] in *. rewrite Hi, Hd, Hs.
  cbn [log_call blobs data_file calls]. do 2 f_equal.
  destruct (unlink_ok e); [|done]. cbn [andb].
  case_bool_decide as Hin; [done|].
  unfold log_call. cbn [blobs data_file calls]. f_equal.
  apply set_eq. intros x. rewrite elem_of_difference, elem_of_singleton.
  split; [|by intros [? _]]. intros Hx. split; [done|]. by intros ->.
Qed.

(** X8: deleting an identifier that a stored record has, when the snapshot
    can be saved, removes the first record with that identifier and keeps
    the others in order, and is answered 200 whether or not the blob could
    be removed: the blob of the record is gone when the removal succeeds and
    stays on disk otherwise. *)
Theorem delete_success (fileId : Z) (e : Env) (w : World) (rec : FileRecord) :
  rec ∈ stored w → f_id rec = fileId → save_ok e = true →
  ∃ i deleted,
    stored w !! i = Some deleted ∧ f_id deleted = fileId
    ∧ (∀ j f, j < i → stored w !! j = Some f → f_id f ≠ fileId)
    ∧ (handleDelete fileId e w).1.2 = sendJSON DeletedBody 200
    ∧ data_file (handleDelete fileId e w).1.1
      = Some (take i (stored w) ++ drop (S i) (stored w))
    ∧ blobs (handleDelete fileId e w).1.1
      = (if unlink_ok e then blobs w ∖ {[ f_path deleted ]} else blobs w).
Proof.
  intros Hin Hid Hs.
  destruct (findIndex_elem fileId _ rec Hin Hid) as [i Hi].
  destruct (findIndex_lookup _ _ _ Hi) as (d & Hd & Hdid).
  exists i, d. split; [done|]. split; [done|].
  split; [by apply findIndex_first|].
  by rewrite (handleDelete_saved _ _ _ i d).
Qed.

Lemma delete_success_witness :
  ∃ i deleted,
    stored full_world !! i = Some deleted
    ∧ (handleDelete 1 sample_env full_world).1.2 = sendJSON DeletedBody 200.
Proof.
  destruct (delete_success 1 sample_env full_world full_record)
    as (i & d & H1 & _ & _ & H4 & _).
  - apply elem_of_cons. left. reflexivity.
  - reflexivity.
  - reflexivity.
  - exists i, d. split; [exact H1 | exact H4].
Defined.

Lemma distinct_ids_middle l1 (d : FileRecord) l2 :
  distinct_ids (l1 ++ d :: l2) →
  distinct_ids (l1 ++ l2)
  ∧ ∀ f, f ∈ l1 ++ l2 → f_id f ≠ f_id d.
Proof.
  unfold distinct_ids. rewrite !fmap_app, fmap_cons.
  intros H. apply NoDup_app in H as (H1 & H12 & H2).
  apply NoDup_cons in H2 as [Hd H2]. split.
  - apply NoDup_app. split; [done|]. split; [|done].
    intros x Hx Hx2. apply (H12 x Hx). by right.
  - intros f [Hf|Hf]%elem_of_app Heq.
    + apply (H12 (f_id f)); [by apply list_elem_of_fmap_2|].
      rewrite Heq. by left.
    + apply Hd. rewrite <- Heq. by apply list_elem_of_fmap_2.
Qed.

(** X9: when the identifiers of the stored records are pairwise distinct, a
    successful delete removes exactly the record of that identifier: the
    records left are the others, their identifiers are still distinct, and a
    later delete or download of the identifier is answered 404. *)
Theorem delete_then_gone (fileId : Z) (e e' : Env) (stat : option N)
    (w : World) (rec : FileRecord) :
  distinct_ids (stored w) → rec ∈ stored w → f_id rec = fileId →
  save_ok e = true →
  let w' := (handleDelete fileId e w).1.1 in
  distinct_ids (stored w')
  ∧ (∀ f, f ∈ stored w' ↔ f ∈ stored w ∧ f_id f ≠ fileId)
  ∧ (handleDelete fileId e' w').1.2
    = sendJSON (ErrorBody (str "File not found")) 404
  ∧ (handleDownload (Some fileId) stat w').2
    = DownloadError
        (sendJSON (ErrorBody (str "File not found in database")) 404).
Proof.
  intros Hnd Hin Hid Hs w'.
  destruct (findIndex_elem fileId _ rec Hin Hid) as [i Hi].
  destruct (findIndex_lookup _ _ _ Hi) as (d & Hd & Hdid).
  assert (stored w' = take i (stored w) ++ drop (S i) (stored w)) as Hst.
  { unfold w'. by rewrite (handleDelete_saved _ _ _ i d). }
  pose proof (take_drop_middle _ _ _ Hd) as Hmid.
  rewrite <- Hmid in Hnd. apply distinct_ids_middle in Hnd as [Hnd' Hother].
  rewrite <- Hst in Hnd', Hother. rewrite Hdid in Hother.
  assert (∀ f, f ∈ stored w' ↔ f ∈ stored w ∧ f_id f ≠ fileId) as Hiff.
  { intros f. split.
    - intros Hf. split; [|by apply Hother].
      rewrite <- Hmid. rewrite Hst in Hf.
      apply elem_of_app in Hf as [Hf|Hf]; apply elem_of_app;
        [by left | right; by right].
    - intros [Hf Hne]. rewrite Hst. rewrite <- Hmid in Hf.
      apply elem_of_app in Hf as [Hf|[->|Hf]%elem_of_cons];
        apply elem_of_app; [by left | done | by right]. }
  split; [done|]. split; [done|]. split.
  - unfold handleDelete. unfold stored in Hother.
    destruct (loadData w') as [w1 files] eqn:El. cbn [snd] in Hother.
    by rewrite (proj2 (findIndex_None fileId files) Hother).
  - unfold handleDownload. unfold stored in Hother.
    destruct (loadData w') as [w1 files] eqn:El. cbn [snd] in Hother.
    cbn [mbind option_bind]. by rewrite find_file_None.
Qed.

Lemma delete_then_gone_witness :
  (handleDelete 1 sample_env (handleDelete 1 sample_env full_world).1.1).1.2
  = sendJSON (ErrorBody (str "File not found")) 404.
Proof.
  refine (proj1 (proj2 (proj2 (delete_then_gone 1 sample_env sample_env None
                                 full_world full_record _ _ _ _)))).
  - unfold distinct_ids. cbn. apply NoDup_singleton.
  - apply elem_of_cons. left. reflexivity.
  - reflexivity.
  - reflexivity.
Defined.









(** ** More on the size codec and the storage report *)

Lemma bytes_check_all : all_from (Z.to_nat 1024) 0 bytes_check = true.
Proof. vm_cast_no_check (eq_refl true). Qed.

(** X12: below one kibibyte the codec is exact: the text is the decimal
    digits of the byte count followed by [Bytes], without decimals, and it
    decodes to the byte count itself. *)
Theorem bytes_roundtrip_exact (n : N) :
  (n < 1024)%N →
  Codec.formatFileSize n = Codec.digits n ++ str " Bytes"
  ∧ ∃ v, Codec.parseFileSize (Codec.formatFileSize n) = Fin v
         ∧ (v == of_N n)%Q.
Proof.
  intros Hn.
  pose proof (all_from_spec _ _ _ (Z.of_N n) bytes_check_all) as Hc.
  rewrite Z2Nat.id in Hc by lia. specialize (Hc ltac:(lia)).
  unfold bytes_check in Hc. rewrite N2Z.id in Hc.
  apply andb_true_iff in Hc as [H1 H2].
  split; [by apply bool_decide_eq_true in H1|].
  destruct (Codec.parseFileSize (Codec.formatFileSize n)) as [|v]; [done|].
  exists v. split; [done | by apply Qeq_bool_eq].
Qed.

Lemma bytes_roundtrip_exact_witness :
  Codec.formatFileSize 1023 = Codec.digits 1023 ++ str " Bytes".
Proof.
  refine (proj1 (bytes_roundtrip_exact 1023 _)). reflexivity.
Defined.

Lemma includes_indexOf_None pat s :
  JS.includes pat s = false → JS.indexOf pat s = None.
Proof. intros H. apply indexOf_None. by apply includes_false. Qed.

(** X13: a size text without a space, or of the form number, space, unit
    with a unit that is not exactly one of [Bytes], [KB], [MB], [GB],
    decodes to 0 whatever its number is. *)
Theorem parseFileSize_fallback (s v u : JSString) :
  (JS.includes (str " ") s = false → Codec.parseFileSize s = Fin 0)
  ∧ (JS.includes (str " ") v = false → JS.includes (str " ") u = false →
     u ∉ Codec.sizes →
     Codec.parseFileSize (v ++ str " " ++ u) = Fin 0).
Proof.
  split.
  - intros Hs. unfold Codec.parseFileSize.
    rewrite split_single by (done || by apply includes_indexOf_None).
    cbn [lookup list_lookup]. by rewrite !bool_decide_eq_false_2.
  - intros Hv Hu Hnot. unfold Codec.parseFileSize.
    rewrite space_split by (by apply includes_indexOf_None).
    cbn [lookup list_lookup].
    rewrite !bool_decide_eq_false_2; [done|..];
      intros [= ->]; apply Hnot; unfold Codec.sizes;
      repeat (first [by left | right]).
Qed.

Lemma parseFileSize_fallback_witness :
  Codec.parseFileSize (str "12") = Fin 0
  ∧ Codec.parseFileSize (str "12" ++ str " " ++ str "kb") = Fin 0.
Proof.
  destruct (parseFileSize_fallback (str "12") (str "12") (str "kb"))
    as [H1 H2].
  split.
  - apply H1. reflexivity.
  - apply H2; [reflexivity | reflexivity |].
    intros Hin. by repeat (apply elem_of_cons in Hin as [Hin|Hin];
                             [discriminate Hin|]); apply elem_of_nil in Hin.
Defined.

Lemma num_toFixed2_nonneg q :
  (0 <= q)%Q →
  num_toFixed2 (Fin q) = Codec.print_hundredths (Codec.hundredths q).
Proof.
  intros Hq. unfold num_toFixed2.
  by rewrite (proj2 (Qle_bool_iff 0 q) Hq).
Qed.

Lemma hundredths_le q c :
  (0 <= q)%Q → (q <= c # 100)%Q → (0 ≤ Codec.hundredths q ≤ c)%Z.
Proof.
  intros Hlo Hhi. unfold Codec.hundredths.
  set (x := (q * 100 + (1 # 2))%Q).
  pose proof (Qfloor_le x) as Hfl. pose proof (Qlt_floor x) as Hfu.
  set (h := Qfloor x) in *.
  rewrite inject_Z_plus in Hfu. change (inject_Z 1) with 1%Q in Hfu.
  assert (inject_Z c == (c # 100) * 100)%Q as Hc.
  { unfold Qeq. simpl. lia. }
  unfold x in Hfl, Hfu. split.
  - assert (inject_Z (-1) < inject_Z h)%Q as H1;
      [|rewrite <- Zlt_Qlt in H1; lia].
    change (inject_Z (-1)) with (-1)%Q. lra.
  - assert (inject_Z h < inject_Z (c + 1))%Q as H1;
      [|rewrite <- Zlt_Qlt in H1; lia].
    rewrite inject_Z_plus. change (inject_Z 1) with 1%Q. lra.
Qed.

(** X14: after any sequence of uploads starting from the empty store, the
    storage report shows the usage in GB with two decimals, at most 25.01,
    a total of 25 GB and a percentage that is a number of at most 100.04. *)
Theorem storage_report_bounded (xs : list (UploadedFile * Env)) :
  let info := (storageInfo (run_uploads xs empty_world)).2 in
  ∃ h hp v,
    si_used info = Codec.print_hundredths h ++ str " GB"
    ∧ (0 ≤ h ≤ 2501)%Z
    ∧ si_total info = str "25 GB"
    ∧ si_percentage info = Fin v
    ∧ (v == hp # 100)%Q ∧ (0 ≤ hp ≤ 10004)%Z.
Proof.
  cbv zeta. destruct (usage_invariant xs) as (used & Hused & H0 & Hcap).
  set (w := run_uploads xs empty_world) in *.
  unfold storageInfo, getTotalStorageUsed, loadData.
  unfold stored, loadData in Hused. cbn [snd] in Hused. rewrite Hused.
  cbn [snd si_used si_total si_percentage].
  unfold bytesToGB, num_div.
  change (Qeq_bool (of_N (1024 * 1024 * 1024)) 0) with false.
  change (Qeq_bool (of_N totalBytes) 0) with false.
  cbn [num_mul]. unfold quota_slack in Hcap.
  change (of_N totalBytes) with 26843545600%Q in *.
  change (of_N (1024 ^ 3)) with 1073741824%Q in *.
  change (of_N (1024 * 1024 * 1024)) with 1073741824%Q.
  assert (0 <= used / 1073741824)%Q as Hq0.
  { apply Qle_shift_div_l; lra. }
  assert (used / 1073741824 <= 2501 # 100)%Q as Hq1.
  { apply Qle_shift_div_r; lra. }
  assert (0 <= used / 26843545600 * 100)%Q as Hp0.
  { apply Qmult_le_0_compat; [|lra]. apply Qle_shift_div_l; lra. }
  assert (used / 26843545600 * 100 <= 10004 # 100)%Q as Hp1.
  { assert (used / 26843545600 <= 10004 # 10000)%Q as Hr
      by (apply Qle_shift_div_r; lra). lra. }
  rewrite !num_toFixed2_nonneg by done.
  pose proof (hundredths_le _ _ Hq0 Hq1) as Hh.
  pose proof (hundredths_le _ _ Hp0 Hp1) as Hhp.
  destruct (print_hundredths_reads
              (Codec.hundredths (used / 26843545600 * 100)) ltac:(lia))
    as (v & Ev & Hv & _).
  eexists _, _, v. split; [done|]. split; [exact Hh|].
  split; [done|]. split; [exact Ev|]. split; [exact Hv | exact Hhp].
Qed.

(** ** The dispatch of requests *)

Lemma storageInfo_world w : (storageInfo w).1 = log_call ReadData w.
Proof. reflexivity. Qed.

Lemma handleDownload_world fileId stat w :
  (handleDownload fileId stat w).1 = log_call ReadData w.
Proof.
  unfold handleDownload, loadData.
  destruct (fileId ≫= _) as [file|]; [|done].
  destruct (bool_decide _); [|done]. by destruct stat.
Qed.

(** X15: a request that is neither a POST of [/api/upload] nor a DELETE
    below [/api/files/] changes neither the blobs nor the metadata file: the
    handler leaves the world alone or reads the snapshot once. *)
Theorem only_upload_and_delete_write (r : HttpRequest) (e : Env)
    (stat : option N) (w : World) :
  ¬ (rq_method r = str "POST" ∧ rq_url r = str "/api/upload") →
  ¬ (rq_method r = str "DELETE"
     ∧ JS.startsWith (str "/api/files/") (rq_url r) = true) →
  let w' := (requestHandler r e stat w).1 in
  (w' = w ∨ w' = log_call ReadData w)
  ∧ blobs w' = blobs w ∧ data_file w' = data_file w.
Proof.
  intros Hup Hdel w'.
  assert (w' = w ∨ w' = log_call ReadData w) as Hw; last first.
  { split; [done|]. by destruct Hw as [->| ->]. }
  unfold w', requestHandler. cbv zeta.
  destruct (bool_decide (rq_method r = str "OPTIONS")); [by left|].
  destruct (JS.startsWith (str "/api/") (rq_url r)).
  - destruct (bool_decide (rq_url r = str "/api/test")
              && bool_decide (rq_method r = str "GET")); [by left|].
    destruct (bool_decide (rq_url r = str "/api/files")
              && bool_decide (rq_method r = str "GET")); [by right|].
    destruct (bool_decide (rq_url r = str "/api/storage")
              && bool_decide (rq_method r = str "GET"));
      [right; apply storageInfo_world|].
    destruct (bool_decide (rq_url r = str "/api/upload")
              && bool_decide (rq_method r = str "POST")) eqn:E1.
    { apply andb_true_iff in E1 as [?%bool_decide_eq_true ?%bool_decide_eq_true].
      by destruct Hup. }
    destruct (JS.startsWith (str "/api/download/") (rq_url r)
              && bool_decide (rq_method r = str "GET")).
    { right. rewrite <- (handleDownload_world (url_id (rq_url r)) stat w).
      by destruct (handleDownload _ _ _). }
    destruct (JS.startsWith (str "/api/files/") (rq_url r)
              && bool_decide (rq_method r = str "DELETE")) eqn:E2.
    { apply andb_true_iff in E2 as [? ?%bool_decide_eq_true].
      by destruct Hdel. }
    by left.
  - destruct (bool_decide (rq_url r = str "/")
              && bool_decide (rq_method r = str "GET")); [by left|].
    destruct (bool_decide (rq_method r = str "GET")
              && JS.startsWith (str "/") (rq_url r)); by left.
Qed.

Lemma only_upload_and_delete_write_witness :
  blobs (requestHandler
           {| rq_method := str "GET"; rq_url := str "/api/files";
              rq_upload := sample_request |} sample_env None full_world).1
  = blobs full_world.
Proof.
  refine (proj1 (proj2 (only_upload_and_delete_write _ sample_env None
                          full_world _ _))).
  - intros [H _]. discriminate H.
  - intros [H _]. discriminate H.
Defined.

Lemma split_lookup_0 sep s :
  sep ≠ [] →
  JS.split sep s !! 0
  = Some (match JS.indexOf sep s with
          | Some j => take j s
          | None => s
          end).
Proof.
  intros Hsep. unfold JS.split. destruct sep as [|p sep]; [done|].
  destruct (JS.indexOf (p :: sep) s) as [j|] eqn:E.
  - by rewrite (split_go_first _ _ _ j).
  - by rewrite split_go_none.
Qed.

Lemma split_lookup_S sep s i k :
  sep ≠ [] → JS.indexOf sep s = Some i →
  JS.split sep s !! S k = JS.split sep (drop (i + length sep) s) !! k.
Proof.
  intros Hsep Hi. unfold JS.split. destruct sep as [|p sep]; [done|].
  by rewrite (split_go_first _ _ _ i).
Qed.

(** The fourth piece of an URL below [/api/files/] or [/api/download/]. *)
Lemma url_fourth_piece prefix rest :
  prefix = str "/api/files/" ∨ prefix = str "/api/download/" →
  JS.split (str "/") (prefix ++ rest) !! 3
  = Some (match JS.indexOf (str "/") rest with
          | Some j => take j rest
          | None => rest
          end).
Proof.
  intros [-> | ->].
  - rewrite (split_lookup_S _ _ 0) by done.
    change (drop _ (str "/api/files/" ++ rest)) with (str "api/files/" ++ rest).
    rewrite (split_lookup_S _ _ 3) by done.
    change (drop _ (str "api/files/" ++ rest)) with (str "files/" ++ rest).
    rewrite (split_lookup_S _ _ 5) by done.
    change (drop _ (str "files/" ++ rest)) with rest.
    by apply split_lookup_0.
  - rewrite (split_lookup_S _ _ 0) by done.
    change (drop _ (str "/api/download/" ++ rest))
      with (str "api/download/" ++ rest).
    rewrite (split_lookup_S _ _ 3) by done.
    change (drop _ (str "api/download/" ++ rest)) with (str "download/" ++ rest).
    rewrite (split_lookup_S _ _ 8) by done.
    change (drop _ (str "download/" ++ rest)) with rest.
    by apply split_lookup_0.
Qed.









Lemma parseInt_no_number t :
  starts_no_number t → ParseInt.parseInt t = None.
Proof.
  destruct t as [|c t]; [done|]. intros (Hd & Hs & Hm & Hp).
  unfold ParseInt.parseInt.
  change (Codec.skip_spaces (c :: t))
    with (if Codec.is_space c then Codec.skip_spaces t else c :: t).
  rewrite Hs.
  assert ((N_of_ascii c =? 45)%N = false) as ->.
  { apply N.eqb_neq. intros E. apply Hm.
    rewrite <- (ascii_N_embedding c), E. done. }
  assert ((N_of_ascii c =? 43)%N = false) as ->.
  { apply N.eqb_neq. intros E. apply Hp.
    rewrite <- (ascii_N_embedding c), E. done. }
  unfold ParseInt.unsigned.
  assert (JS.startsWith (str "0x") (c :: t)
          || JS.startsWith (str "0X") (c :: t) = false) as ->.
  { change (Ascii.eqb "0" c && JS.startsWith ["x"%char] t
            || Ascii.eqb "0" c && JS.startsWith ["X"%char] t = false).
    assert (Ascii.eqb "0" c = false) as ->; [|done].
    destruct (Ascii.eqb_spec "0" c) as [<-|]; [by vm_compute in Hd | done]. }
  cbn [ParseInt.radix_digits]. unfold ParseInt.dec_digit.
  unfold Codec.is_digit in Hd. by rewrite Hd.
Qed.

Lemma piece_no_number rest :
  starts_no_number rest →
  starts_no_number
    (match JS.indexOf (str "/") rest with
     | Some j => take j rest
     | None => rest
     end).
Proof.
  intros Hr. destruct (JS.indexOf (str "/") rest) as [j|]; [|done].
  destruct rest as [|c rest]; [by rewrite take_nil|].
  by destruct j.
Qed.

(** X17: a delete URL whose identifier piece is empty or starts with
    something that cannot start a number (so that [parseInt] gives [NaN])
    matches no record: the answer is 404, the snapshot is read once and
    nothing is written or removed. *)
Theorem delete_url_not_a_number (rest : JSString) (up : Request) (e : Env)
    (stat : option N) (w : World) :
  starts_no_number rest →
  requestHandler {| rq_method := str "DELETE";
                    rq_url := str "/api/files/" ++ rest;
                    rq_upload := up |} e stat w
  = (log_call ReadData w,
     Json (sendJSON (ErrorBody (str "File not found")) 404)).
Proof.
  intros Hr.
  assert (url_id (str "/api/files/" ++ rest) = None) as Hid.
  { unfold url_id. rewrite url_fourth_piece by (by left).
    cbn [default from_option id].
    by apply parseInt_no_number, piece_no_number. }
  unfold requestHandler. cbv zeta. cbn [rq_method rq_url].
  rewrite (bool_decide_eq_false_2 (str "DELETE" = str "OPTIONS")) by done.
  change (JS.startsWith (str "/api/") (str "/api/files/" ++ rest)) with true.
  rewrite !(bool_decide_eq_false_2 (str "DELETE" = str "GET")) by done.
  rewrite !(bool_decide_eq_false_2 (str "DELETE" = str "POST")) by done.
  rewrite !andb_false_r.
  change (JS.startsWith (str "/api/files/") (str "/api/files/" ++ rest))
    with true.
  rewrite bool_decide_eq_true_2 by done. cbn [andb].
  unfold deleteRoute. by rewrite Hid.
Qed.

Lemma delete_url_not_a_number_witness :
  requestHandler {| rq_method := str "DELETE";
                    rq_url := str "/api/files/" ++ str "abc";
                    rq_upload := sample_request |} sample_env None full_world
  = (log_call ReadData full_world,
     Json (sendJSON (ErrorBody (str "File not found")) 404)).
Proof.
  apply delete_url_not_a_number.
  split; [reflexivity|]. split; [reflexivity|]. split; discriminate.
Defined.



Lemma find_file_findIndex fileId files i f :
  findIndex fileId files = Some i → files !! i = Some f →
  find_file fileId files = Some f.
Proof.
  unfold find_file. revert i. induction files as [|g files IH]; intros i;
    simpl; [done|].
  destruct (bool_decide (f_id g = fileId)).
  - by intros [= <-] [= <-].
  - destruct (findIndex fileId files) as [k|]; [|done].
    intros [= <-]. simpl. by apply IH.
Qed.


(** X19: the download of a stored record whose blob is not on disk is
    answered 404 with the message of the missing file, whatever [fs.stat]
    would say, and when the blob is there but [fs.stat] fails the answer is
    500; in both cases the world is only read. *)
Theorem download_failures (fileId : Z) (stat : option N) (w : World)
    (i : nat) (rec : FileRecord) :
  findIndex fileId (stored w) = Some i → stored w !! i = Some rec →
  (f_path rec ∉ blobs w →
   handleDownload (Some fileId) stat w
   = (log_call ReadData w,
      DownloadError (sendJSON (ErrorBody (str "File not found on disk")) 404)))
  ∧ (f_path rec ∈ blobs w →
     handleDownload (Some fileId) None w
     = (log_call ReadData w,
        DownloadError (sendJSON (ErrorBody (str "Error accessing file")) 500))).
Proof.
  intros Hi Hrec. pose proof (find_file_findIndex _ _ _ _ Hi Hrec) as Hf.
  unfold handleDownload, loadData. unfold stored, loadData in Hf.
  cbn [snd] in Hf. cbn [mbind option_bind]. rewrite Hf.
  cbn [log_call blobs]. split; intros Hb.
  - by rewrite bool_decide_eq_false_2.
  - by rewrite bool_decide_eq_true_2.
Qed.

Lemma download_failures_witness :
  handleDownload (Some 7%Z) (Some 3%N) corrupt_world
  = (log_call ReadData corrupt_world,
     DownloadError (sendJSON (ErrorBody (str "File not found on disk")) 404)).
Proof.
  refine (proj1 (download_failures 7 (Some 3%N) corrupt_world 0
                   corrupt_record _ _) _).
  - reflexivity.
  - reflexivity.
  - cbn [blobs corrupt_world]. apply not_elem_of_empty.
Defined.


